(** * font_converter.py: a shallow embedding and its properties

    The script downloads a font from a URL, validates it, re-serialises it
    with another container flavor, validates the result, reports the two
    sizes, moves the result into the working directory and removes its
    scratch directory.

    The embedding follows the script: Python strings are [string], file
    contents are [list byte], the file system is a finite map from
    locations to nodes, and every method of [FontConverter] as well as
    [main] is a computation in a state-and-exception monad over the file
    system and an event trace.  The two collaborators the script delegates
    to, the HTTP client and the font codec, are parameters of the
    development ([Env]), as is [str.lower]; the parsing of the command
    line follows argparse for the parser the script builds. *)

From Stdlib Require Import ZArith QArith String Ascii Strings.Byte List Lia.
From stdpp Require Import base strings gmap list pretty.

Close Scope Q_scope.
Open Scope string_scope.
Open Scope list_scope.

(** ** Python strings *)

Module Str.

(** [c in s] *)
Fixpoint contains (c : ascii) (s : string) : bool :=
  match s with
  | EmptyString => false
  | String a r => if Ascii.eqb a c then true else contains c r
  end.

(** [s[n:]] *)
Fixpoint drop (n : nat) (s : string) : string :=
  match n, s with
  | O, _ => s
  | S _, EmptyString => EmptyString
  | S n', String _ r => drop n' r
  end.

(** [s[:n]] *)
Fixpoint take (n : nat) (s : string) : string :=
  match n, s with
  | O, _ => EmptyString
  | S _, EmptyString => EmptyString
  | S n', String a r => String a (take n' r)
  end.

(** [s[i:j]] for indices that are not negative *)
Definition slice (i j : Z) (s : string) : string :=
  take (Z.to_nat (j - i)) (drop (Z.to_nat i) s).

(** [s.rfind(c)]: the highest index at which [c] occurs, -1 when it does
    not occur. *)
Fixpoint rfind (c : ascii) (s : string) : Z :=
  match s with
  | EmptyString => -1
  | String a r =>
      let i := rfind c r in
      if (0 <=? i)%Z then (i + 1)%Z
      else if Ascii.eqb a c then 0%Z else (-1)%Z
  end.

(** [s.split(sep)] for a one-character separator: never empty. *)
Fixpoint split (sep : ascii) (s : string) : list string :=
  match s with
  | EmptyString => [EmptyString]
  | String a r =>
      if Ascii.eqb a sep then EmptyString :: split sep r
      else match split sep r with
           | h :: t => String a h :: t
           | [] => [String a EmptyString]
           end
  end.

(** [s.startswith(c)] and [s.endswith(c)] *)
Definition startswith (c : ascii) (s : string) : bool :=
  match s with
  | String a _ => Ascii.eqb a c
  | EmptyString => false
  end.

Fixpoint endswith (c : ascii) (s : string) : bool :=
  match s with
  | EmptyString => false
  | String a EmptyString => Ascii.eqb a c
  | String _ r => endswith c r
  end.

(** [s.lower()] for a string of ASCII characters, where it turns the
    letters [A] to [Z] into [a] to [z] and keeps the rest.  On other
    strings [str.lower] follows the case tables of Unicode, which this
    function does not: it is here for the runs on concrete paths. *)
Definition lower_char (c : ascii) : ascii :=
  let n := nat_of_ascii c in
  if (65 <=? n)%nat && (n <=? 90)%nat then ascii_of_nat (n + 32) else c.

Fixpoint lower (s : string) : string :=
  match s with
  | EmptyString => EmptyString
  | String a r => String (lower_char a) (lower r)
  end.

(** [s.lstrip(c)]: drop every leading [c]. *)
Fixpoint lstrip (c : ascii) (s : string) : string :=
  match s with
  | EmptyString => EmptyString
  | String a r => if Ascii.eqb a c then lstrip c r else s
  end.

End Str.

(** ** posixpath *)

Module Path.

(** [os.path.basename]: [i = p.rfind('/') + 1; return p[i:]] *)
Definition basename (p : string) : string :=
  let i := (Str.rfind "/" p + 1)%Z in
  Str.drop (Z.to_nat i) p.

(** The scan of [genericpath._splitext] over [p[sepIndex+1:dotIndex]]:
    true as soon as a character other than the dot is met ("skip all
    leading dots"). *)
Fixpoint has_non_dot (s : string) : bool :=
  match s with
  | EmptyString => false
  | String a r => if Ascii.eqb a "." then has_non_dot r else true
  end.

(** [os.path.splitext] *)
Definition splitext (p : string) : string * string :=
  let sepIndex := Str.rfind "/" p in
  let dotIndex := Str.rfind "." p in
  if (sepIndex <? dotIndex)%Z
     && has_non_dot (Str.slice (sepIndex + 1) dotIndex p)
  then (Str.take (Z.to_nat dotIndex) p, Str.drop (Z.to_nat dotIndex) p)
  else (p, EmptyString).

(** [os.path.join(a, b)] *)
Definition join (a b : string) : string :=
  if Str.startswith "/" b || String.eqb a "" then b
  else if Str.endswith "/" a then a ++ b
  else a ++ "/" ++ b.

End Path.

(** ** Exceptions and results *)

(** The Python exceptions the script can meet.  [LibError] stands for
    whatever the font codec raises. *)
Inductive exn :=
| FileNotFoundError
| NotADirectoryError
| IsADirectoryError
| FileExistsError
| OSError (what : string)
| ConnectionError
| HTTPError (status : Z)
| ChunkedEncodingError
| LibError (what : string)
| ZeroDivisionError.

(** The result of a library call: a value or a raised exception. *)
Notation "'res' A" := (sum exn A) (at level 10, only parsing).

(** ** The file system *)

Module Fs.

(** A node is a regular file with its bytes, or a directory.  A location
    is the list of names leading to it from the root, which is [[]] and
    always a directory.  Permissions, links and disk space are not
    modelled. *)
Inductive node := File (content : list byte) | Dir.

Abbreviation t := (gmap (list string) node).

Definition parent (l : list string) : list string := removelast l.

Definition is_dir (fs : t) (l : list string) : bool :=
  match l with
  | [] => true
  | _ => match fs !! l with Some Dir => true | _ => false end
  end.

Definition special (c : string) : bool :=
  String.eqb c "" || String.eqb c ".".

(** Resolution of the directory part of a path, one name at a time. *)
Fixpoint walk (fs : t) (cur : list string) (comps : list string)
  : res (list string) :=
  match comps with
  | [] => inr cur
  | c :: rest =>
      if special c then walk fs cur rest
      else if String.eqb c ".." then walk fs (parent cur) rest
      else match fs !! (cur ++ [c]) with
           | Some Dir => walk fs (cur ++ [c]) rest
           | Some (File _) => inl NotADirectoryError
           | None => inl FileNotFoundError
           end
  end.

(** Where the resolution of a path starts: the root for an absolute
    path, the working directory otherwise. *)
Definition origin (cwd : list string) (p : string) : list string :=
  if Str.startswith "/" p then [] else cwd.

(** The location a path names: the resolution starts in a directory,
    every name but the last must lead through existing directories, and
    the last one may name nothing yet. *)
Definition locate (fs : t) (cwd : list string) (p : string)
  : res (list string) :=
  if String.eqb p "" then inl FileNotFoundError
  else if negb (is_dir fs (origin cwd p)) then inl FileNotFoundError
  else
    let comps := Str.split "/" p in
    match walk fs (origin cwd p) (removelast comps) with
    | inl e => inl e
    | inr d =>
        let c := List.last comps "" in
        if special c then inr d
        else if String.eqb c ".." then inr (parent d)
        else inr (d ++ [c])
    end.

(** [open(p, 'wb')]: the file is created or truncated. *)
Definition open_wb (fs : t) (cwd : list string) (p : string)
  : res (t * list string) :=
  match locate fs cwd p with
  | inl e => inl e
  | inr l =>
      if is_dir fs l then inl IsADirectoryError
      else if negb (is_dir fs (parent l)) then inl FileNotFoundError
      else inr (<[l := File []]> fs, l)
  end.

(** [f.write(chunk)] on a file opened at location [l] *)
Definition append (fs : t) (l : list string) (chunk : list byte) : t :=
  match fs !! l with
  | Some (File c) => <[l := File (c ++ chunk)]> fs
  | _ => fs
  end.

(** [open(p, 'rb').read()] *)
Definition read (fs : t) (cwd : list string) (p : string)
  : res (list byte) :=
  match locate fs cwd p with
  | inl e => inl e
  | inr l =>
      match fs !! l with
      | Some (File c) => inr c
      | Some Dir => inl IsADirectoryError
      | None => if is_dir fs l then inl IsADirectoryError
                else inl FileNotFoundError
      end
  end.

(** What [stat] reports as the size of a directory. *)
Definition dir_size : Z := 4096.

(** [os.path.getsize] *)
Definition getsize (fs : t) (cwd : list string) (p : string) : res Z :=
  match locate fs cwd p with
  | inl e => inl e
  | inr l =>
      match fs !! l with
      | Some (File c) => inr (Z.of_nat (length c))
      | Some Dir => inr dir_size
      | None => if is_dir fs l then inr dir_size
                else inl FileNotFoundError
      end
  end.

(** [os.makedirs(p, exist_ok=True)]: the missing directories along [p]
    are created, the existing ones are kept. *)
Fixpoint mkdirs (fs : t) (cur : list string) (comps : list string)
  : res t :=
  match comps with
  | [] => inr fs
  | c :: rest =>
      if special c then mkdirs fs cur rest
      else if String.eqb c ".." then mkdirs fs (parent cur) rest
      else match fs !! (cur ++ [c]) with
           | Some Dir => mkdirs fs (cur ++ [c]) rest
           | Some (File _) =>
               inl (match rest with
                    | [] => FileExistsError
                    | _ => NotADirectoryError
                    end)
           | None =>
               if is_dir fs cur
               then mkdirs (<[cur ++ [c] := Dir]> fs) (cur ++ [c]) rest
               else inl FileNotFoundError
           end
  end.

Definition makedirs (fs : t) (cwd : list string) (p : string) : res t :=
  if String.eqb p "" then inl FileNotFoundError
  else if negb (is_dir fs (origin cwd p)) then inl FileNotFoundError
  else mkdirs fs (origin cwd p) (Str.split "/" p).

(** The nodes below a directory, and the directory itself. *)
Definition under (l k : list string) : Prop := l `prefix_of` k.

Definition remove_tree (l : list string) (fs : t) : t :=
  filter (λ kv, ¬ under l kv.1) fs.

(** Re-rooting of a location from below [src] to below [dst]. *)
Definition reroot (src dst k : list string) : list string :=
  if decide (under src k) then dst ++ List.skipn (length src) k else k.

Definition move_tree (src dst : list string) (fs : t) : t :=
  list_to_map
    (List.map (λ kv, (reroot src dst kv.1, kv.2)) (map_to_list fs)).

Definition has_children (fs : t) (l : list string) : bool :=
  existsb (λ k, bool_decide (under l k ∧ k ≠ l)) (map_to_list fs).*1.

(** Directories are kept from [fs] to [fs']. *)
Definition dirs_kept (fs fs' : t) : Prop :=
  ∀ k, fs !! k = Some Dir → fs' !! k = Some Dir.

(** A name that is a single component of a path and names an entry of a
    directory. *)
Definition plain_name (n : string) : bool :=
  negb (Str.contains "/" n) && negb (special n) && negb (String.eqb n "..").

(** [os.rename(src, dst)] *)
Definition rename (fs : t) (cwd : list string) (src dst : string)
  : res t :=
  match locate fs cwd src with
  | inl e => inl e
  | inr ls =>
      match locate fs cwd dst with
      | inl e => inl e
      | inr ld =>
          match fs !! ls with
          | None => inl (if is_dir fs ls then OSError "EBUSY"
                         else FileNotFoundError)
          | Some (File c) =>
              if is_dir fs ld then inl IsADirectoryError
              else if negb (is_dir fs (parent ld)) then inl FileNotFoundError
              else inr (<[ld := File c]> (delete ls fs))
          | Some Dir =>
              if decide (ls = ld) then inr fs
              else if decide (under ls ld) then inl (OSError "EINVAL")
              else match fs !! ld with
                   | Some (File _) => inl NotADirectoryError
                   | Some Dir =>
                       if has_children fs ld then inl (OSError "ENOTEMPTY")
                       else inr (move_tree ls ld fs)
                   | None =>
                       if is_dir fs ld then inl (OSError "EBUSY")
                       else if negb (is_dir fs (parent ld))
                       then inl FileNotFoundError
                       else inr (move_tree ls ld fs)
                   end
          end
      end
  end.

(** [shutil.rmtree(p)] *)
Definition rmtree (fs : t) (cwd : list string) (p : string) : res t :=
  match locate fs cwd p with
  | inl e => inl e
  | inr l =>
      match fs !! l with
      | Some Dir => inr (remove_tree l fs)
      | Some (File _) => inl NotADirectoryError
      | None => inl (if is_dir fs l then OSError "EBUSY"
                     else FileNotFoundError)
      end
  end.

End Fs.

(** ** The collaborators *)

(** An HTTP response as the script uses it: its status code, and its body
    as [iter_content] yields it, chunk after chunk, ending either with the
    end of the stream or, when [broken], with a transport failure after
    the chunks listed. *)
Record Response := {
  status_code : Z;
  chunks : list (list byte);
  broken : bool
}.

(** The font codec (fontTools).  [sfnt_read] is what [TTFont(file)] finds
    in the bytes of a container: its tables and the flavor of the
    container ([None] for a plain sfnt file, ["woff"] or ["woff2"] for a
    compressed one).  [sfnt_write] is what [save] serialises for a set of
    tables and the flavor the font object has at that moment. *)
Record FontLib := {
  Tables : Type;
  sfnt_read : list byte → res (Tables * option string);
  glyph_order : Tables → res (list string);
  sfnt_write : Tables → option string → res (list byte)
}.

Record Env := {
  lib : FontLib;
  http_get : string → res Response;
  cwd : list string
}.

(** ** Events *)

Inductive method :=
| m_download_font
| m_detect_font_format
| m_convert_font
| m_validate_font.

(** The messages of the logger, without their timestamp. *)
Inductive message :=
| Downloading (url : string)
| Downloaded (path : string)
| DownloadFailed (e : exn)
| Converting (src dst : string)
| Converted (dst : string)
| ConvertFailed (e : exn)
| InputInvalid
| OutputInvalid
| Done
| InputFile (name : string) (size : Z)
| OutputFile (name : string) (size : Z)
| Ratio (percent : Q).

(** What a run leaves behind besides the file system: the methods of
    [FontConverter] it entered, the log, and the lines on standard
    output. *)
Inductive event :=
| Call (m : method) (args : list string)
| LogInfo (msg : message)
| LogError (msg : message)
| Stdout (line : string).

Record World := {
  fs : Fs.t;
  trace : list event
}.

(** ** The monad of the script *)

Inductive outcome (A : Type) :=
| Val (a : A)
| Raise (e : exn)
| SysExit (code : Z).
Arguments Val {A} a.
Arguments Raise {A} e.
Arguments SysExit {A} code.

Definition M (A : Type) : Type := World → outcome A * World.

#[export] Instance M_ret : MRet M := λ A a w, (Val a, w).

#[export] Instance M_bind : MBind M := λ A B k m w,
  match m w with
  | (Val a, w') => k a w'
  | (Raise e, w') => (Raise e, w')
  | (SysExit c, w') => (SysExit c, w')
  end.

Definition raise {A} (e : exn) : M A := λ w, (Raise e, w).

(** [sys.exit(code)] *)
Definition sys_exit {A} (code : Z) : M A := λ w, (SysExit code, w).

Definition lift {A} (r : res A) : M A :=
  match r with
  | inl e => raise e
  | inr a => mret a
  end.

(** The world with more events in its trace, and with another file
    system. *)
Definition logged (w : World) (evs : list event) : World :=
  {| fs := fs w; trace := trace w ++ evs |}.

Definition stored (w : World) (fs' : Fs.t) : World :=
  {| fs := fs'; trace := trace w |}.

Definition emit (e : event) : M unit := λ w, (Val tt, logged w [e]).

Definition log_info (msg : message) : M unit := emit (LogInfo msg).
Definition log_error (msg : message) : M unit := emit (LogError msg).
Definition print (line : string) : M unit := emit (Stdout line).

(** [try: body except Exception as e: handler(e)]: [SystemExit] is not an
    [Exception] and passes through. *)
Definition try_except {A} (body : M A) (handler : exn → M A) : M A := λ w,
  match body w with
  | (Raise e, w') => handler e w'
  | r => r
  end.

(** [try: body except: handler], the bare clause, which catches
    everything. *)
Definition try_except_all {A} (body : M A) (handler : M A) : M A := λ w,
  match body w with
  | (Val a, w') => (Val a, w')
  | (_, w') => handler w'
  end.

(** The status the process ends with: 0 when [main] returns, the argument
    of [sys.exit], and 1 when an exception reaches the top level. *)
Definition exit_status {A} (r : outcome A * World) : Z :=
  match r.1 with
  | Val _ => 0
  | Raise _ => 1
  | SysExit c => c
  end.

(** A read of the file system, and an update of it. *)
Definition fs_get {A} (f : Fs.t → res A) : M A := λ w, lift (f (fs w)) w.

Definition fs_put (f : Fs.t → res Fs.t) : M unit := λ w,
  match f (fs w) with
  | inl e => (Raise e, w)
  | inr fs' => (Val tt, stored w fs')
  end.

(** [f = open(p, 'wb')]: the file is created or truncated, and [f] is the
    location written to. *)
Definition open_wb (cwd : list string) (p : string) : M (list string) := λ w,
  match Fs.open_wb (fs w) cwd p with
  | inl e => (Raise e, w)
  | inr (fs', l) => (Val l, stored w fs')
  end.

(** [f.write(chunk)] *)
Definition write (f : list string) (chunk : list byte) : M unit := λ w,
  (Val tt, stored w (Fs.append (fs w) f chunk)).

(** ** The command line *)

(** The choices of [--output-format]. *)
Inductive Format := ttf | otf | woff | woff2.

Definition tag (f : Format) : string :=
  match f with
  | ttf => "ttf"
  | otf => "otf"
  | woff => "woff"
  | woff2 => "woff2"
  end.

(** The parsed command line; [output_name] is [None] when the option is
    not given. *)
Record Args := {
  url : string;
  output_format : Format;
  output_name : option string
}.

(** [if args.output_name:] *)
Definition truthy (o : option string) : bool :=
  match o with
  | Some s => negb (String.eqb s "")
  | None => false
  end.

Definition temp_dir : string := "temp_fonts".

Definition input_filename (args : Args) : string :=
  List.hd "" (Str.split "?" (Path.basename (url args))).

Definition input_path (args : Args) : string :=
  Path.join temp_dir (input_filename args).

Definition output_filename (args : Args) : string :=
  if truthy (output_name args)
  then default "" (output_name args) ++ "." ++ tag (output_format args)
  else
    let base_name := (Path.splitext (input_filename args)).1 in
    base_name ++ "." ++ tag (output_format args).

Definition output_path (args : Args) : string :=
  Path.join temp_dir (output_filename args).

(** ** class FontConverter *)

Section FontConverter.

Context (env : Env).

(** The font object: the tables read from the container and the mutable
    [flavor] attribute. *)
Record TTFont := {
  tables : Tables (lib env);
  flavor : option string
}.

Definition set_flavor (font : TTFont) (f : string) : TTFont :=
  {| tables := tables font; flavor := Some f |}.

(** [TTFont(file)] *)
Definition TTFont_open (file : string) : M TTFont :=
  data ← fs_get (λ fs, Fs.read fs (cwd env) file);
  '(t, f) ← lift (sfnt_read (lib env) data);
  mret {| tables := t; flavor := f |}.

(** [font.getGlyphOrder()] *)
Definition getGlyphOrder (font : TTFont) : M (list string) :=
  lift (glyph_order (lib env) (tables font)).

(** [font.save(file)]: the container is serialised in memory with the
    flavor the object has, then written to the path. *)
Definition save (font : TTFont) (file : string) : M unit :=
  data ← lift (sfnt_write (lib env) (tables font) (flavor font));
  f ← open_wb (cwd env) file;
  write f data.

(** [font.close()] *)
Definition close (font : TTFont) : M unit := mret tt.

(** [requests.get(url, stream=True)] *)
Definition requests_get (url : string) : M Response :=
  lift (http_get env url).

(** The status codes [raise_for_status] raises for: the client and the
    server errors. *)
Definition error_status (response : Response) : bool :=
  (400 <=? status_code response)%Z && (status_code response <? 600)%Z.

(** [response.raise_for_status()] *)
Definition raise_for_status (response : Response) : M unit :=
  if error_status response
  then raise (HTTPError (status_code response))
  else mret tt.

(** [for chunk in response.iter_content(...): f.write(chunk)] on the file
    opened at location [f] *)
Fixpoint write_chunks (f : list string) (cs : list (list byte))
    (broken : bool) : M unit :=
  match cs with
  | [] => if broken then raise ChunkedEncodingError else mret tt
  | chunk :: rest =>
      write f chunk;;
      write_chunks f rest broken
  end.

Definition download_font (url output_path : string) : M bool :=
  emit (Call m_download_font [url; output_path]);;
  try_except
    (log_info (Downloading url);;
     response ← requests_get url;
     raise_for_status response;;
     f ← open_wb (cwd env) output_path;
     write_chunks f (chunks response) (broken response);;
     log_info (Downloaded output_path);;
     mret true)
    (λ e, log_error (DownloadFailed e);; mret false).

(** [ext.lower()] follows the case tables of Unicode, which are no part
    of the script: [str.lower] is the parameter [str_lower] of the
    method. *)
Definition detect_font_format (str_lower : string → string)
    (file_path : string) : M string :=
  emit (Call m_detect_font_format [file_path]);;
  let ext := (Path.splitext file_path).2 in
  mret (Str.lstrip "." (str_lower ext)).

(** The chain of tests on the target format in [convert_font]: the two
    compressed formats set the flavor, [ttf] and [otf] "pass". *)
Definition retarget (font : TTFont) (output_format : string) : TTFont :=
  if String.eqb output_format "woff2" then set_flavor font "woff2"
  else if String.eqb output_format "woff" then set_flavor font "woff"
  else if String.eqb output_format "ttf" then font
  else if String.eqb output_format "otf" then font
  else font.

Definition convert_font (input_path output_path output_format : string)
  : M bool :=
  emit (Call m_convert_font [input_path; output_path; output_format]);;
  try_except
    (log_info (Converting input_path output_path);;
     font ← TTFont_open input_path;
     let font := retarget font output_format in
     save font output_path;;
     close font;;
     log_info (Converted output_path);;
     mret true)
    (λ e, log_error (ConvertFailed e);; mret false).

Definition validate_font (file_path : string) : M bool :=
  emit (Call m_validate_font [file_path]);;
  try_except_all
    (font ← TTFont_open file_path;
     order ← getGlyphOrder font;
     let valid := (0 <? length order)%nat in
     close font;;
     mret valid)
    (mret false).

(** A file that opens as a font container and exposes at least one glyph
    identifier. *)
Definition opens_with_glyphs (fs : Fs.t) (file_path : string) : Prop :=
  ∃ data t f order,
    Fs.read fs (cwd env) file_path = inr data ∧
    sfnt_read (lib env) data = inr (t, f) ∧
    glyph_order (lib env) t = inr order ∧
    order ≠ [].

(** ** main *)

(** [(1 - output_size/input_size) * 100], kept as an exact rational;
    Python evaluates it in binary floating point and prints it with one
    decimal. *)
Definition percent (input_size output_size : Z) : M Q :=
  if (input_size =? 0)%Z then raise ZeroDivisionError
  else mret ((1 - inject_Z output_size / inject_Z input_size) * 100)%Q.

Definition main (args : Args) : M unit :=
  fs_put (λ fs, Fs.makedirs fs (cwd env) temp_dir);;
  let input_filename := input_filename args in
  let input_path := Path.join temp_dir input_filename in
  ok ← download_font (url args) input_path;
  if negb ok then sys_exit 1 else
  ok ← validate_font input_path;
  if negb ok then log_error InputInvalid;; sys_exit 1 else
  let output_filename := output_filename args in
  let output_path := Path.join temp_dir output_filename in
  ok ← convert_font input_path output_path (tag (output_format args));
  if negb ok then sys_exit 1 else
  ok ← validate_font output_path;
  if negb ok then log_error OutputInvalid;; sys_exit 1 else
  input_size ← fs_get (λ fs, Fs.getsize fs (cwd env) input_path);
  output_size ← fs_get (λ fs, Fs.getsize fs (cwd env) output_path);
  log_info Done;;
  log_info (InputFile input_filename input_size);;
  log_info (OutputFile output_filename output_size);;
  ratio ← percent input_size output_size;
  log_info (Ratio ratio);;
  let final_output_path := output_filename in
  fs_put (λ fs, Fs.rename fs (cwd env) output_path final_output_path);;
  fs_put (λ fs, Fs.rmtree fs (cwd env) temp_dir);;
  print ("::set-output name=converted_file::" ++ final_output_path);;
  print ("::set-output name=input_size::" ++ pretty input_size);;
  print ("::set-output name=output_size::" ++ pretty output_size).

End FontConverter.

(** ** The command line, as argparse reads it *)

(** [main] starts by building an [ArgumentParser] with three options and
    by calling [parse_args] on [sys.argv[1:]] (lines 91 to 97).  The
    module follows [parse_args] of CPython 3.11 for this parser: every
    string is first classified as an option or as an argument, then the
    strings are consumed from left to right.  The messages argparse writes
    on standard error are left out. *)
Module Argparse.

Inductive dest := Url | OutputFormat | OutputName.

(** [-h/--help], which [ArgumentParser] adds itself, takes no argument;
    the options of the three [add_argument] calls store one argument. *)
Inductive action := Help | Store (d : dest).

(** [parser._option_string_actions], in the order of registration *)
Definition option_string_actions : list (string * action) :=
  [("-h", Help); ("--help", Help);
   ("--url", Store Url);
   ("--output-format", Store OutputFormat);
   ("--output-name", Store OutputName)].

Definition lookup (option_string : string) : option action :=
  (λ p, p.2) <$>
    List.find (λ p, String.eqb p.1 option_string) option_string_actions.

(** [choices=['ttf', 'otf', 'woff', 'woff2']] *)
Definition choices : list Format := [ttf; otf; woff; woff2].

Definition choice (arg_string : string) : option Format :=
  List.find (λ f, String.eqb (tag f) arg_string) choices.

(** [s.split(sep, 1)] when [sep in s] *)
Fixpoint split1 (sep : ascii) (s : string) : option (string * string) :=
  match s with
  | EmptyString => None
  | String a r =>
      if Ascii.eqb a sep then Some (EmptyString, r)
      else match split1 sep r with
           | Some (h, t) => Some (String a h, t)
           | None => None
           end
  end.

(** [_negative_number_matcher], the pattern [^-\d+$|^-\d*\.\d+$], on
    ASCII digits; [$] also matches before a newline that ends the
    string. *)
Definition is_digit (c : ascii) : bool :=
  let n := nat_of_ascii c in
  (48 <=? n)%nat && (n <=? 57)%nat.

Fixpoint digits (s : string) : bool :=
  match s with
  | EmptyString => true
  | String c r => is_digit c && digits r
  end.

Fixpoint chomp (s : string) : string :=
  match s with
  | EmptyString => EmptyString
  | String c EmptyString => if Ascii.eqb c "010" then EmptyString else s
  | String c r => String c (chomp r)
  end.

Definition negative_number (s : string) : bool :=
  match chomp s with
  | String "-" r =>
      (negb (String.eqb r "") && digits r)
      || match split1 "." r with
         | Some (i, f) => digits i && negb (String.eqb f "") && digits f
         | None => false
         end
  | _ => false
  end.

(** [_get_option_tuples]: the options a string can stand for, with the
    option string and the explicit argument of each reading.  A string
    that starts with two dashes abbreviates every option string it is a
    prefix of, once cut at its first [=]; a string that starts with one
    dash is read as a one-letter option followed by its argument. *)
Definition get_option_tuples (option_string : string)
  : list (action * string * option string) :=
  match option_string with
  | String "-" (String "-" _) =>
      let '(option_prefix, explicit_arg) :=
        match split1 "=" option_string with
        | Some (p, e) => (p, Some e)
        | None => (option_string, None)
        end in
      omap (λ '(o, a),
              if String.prefix option_prefix o
              then Some (a, o, explicit_arg) else None)
        option_string_actions
  | String "-" (String c rest) =>
      let short_option_prefix := String "-" (String c EmptyString) in
      let short_explicit_arg := rest in
      omap (λ '(o, a),
              if String.eqb o short_option_prefix
              then Some (a, o, Some short_explicit_arg)
              else if String.prefix option_string o
              then Some (a, o, None) else None)
        option_string_actions
  | _ => []
  end.

(** [_parse_optional]: [Positional] is its [None], an argument;
    [Optional None] is a string that looks like an option and is none of
    the parser's; [Ambiguous] is the error of an abbreviation that fits
    several options. *)
Inductive optional :=
| Positional
| Optional (a : option action) (option_string : string)
    (explicit_arg : option string)
| Ambiguous.

Definition parse_optional (arg_string : string) : optional :=
  match arg_string with
  | EmptyString => Positional
  | String c rest =>
      if negb (Ascii.eqb c "-") then Positional
      else
        match lookup arg_string with
        | Some a => Optional (Some a) arg_string None
        | None =>
            if String.eqb rest "" then Positional
            else
              let exact :=
                match split1 "=" arg_string with
                | Some (option_string, explicit_arg) =>
                    match lookup option_string with
                    | Some a =>
                        Some (Optional (Some a) option_string
                                (Some explicit_arg))
                    | None => None
                    end
                | None => None
                end in
              match exact with
              | Some o => o
              | None =>
                  match get_option_tuples arg_string with
                  | _ :: _ :: _ => Ambiguous
                  | [(a, o, e)] => Optional (Some a) o e
                  | [] =>
                      if negative_number arg_string then Positional
                      else if Str.contains " " arg_string then Positional
                      else Optional None arg_string None
                  end
              end
        end
  end.

(** The pattern of the command line: [A] for an argument, [O] for an
    option, [DoubleDash] for the first [--], after which every string is
    an argument.  [None] is the error of an ambiguous abbreviation, which
    argparse reports before it consumes anything. *)
Inductive token :=
| A (arg_string : string)
| O (a : option action) (option_string : string)
    (explicit_arg : option string)
| DoubleDash.

Fixpoint pattern (arg_strings : list string) : option (list token) :=
  match arg_strings with
  | [] => Some []
  | s :: rest =>
      if String.eqb s "--" then Some (DoubleDash :: List.map A rest)
      else
        match parse_optional s with
        | Ambiguous => None
        | Positional => cons (A s) <$> pattern rest
        | Optional a o e => cons (O a o e) <$> pattern rest
        end
  end.

(** A value of the namespace: the string given (for [--output-format],
    the choice it names), or the empty list [_get_values] makes of an
    explicit argument that is [--] itself. *)
Inductive value (T : Type) := Given (v : T) | EmptyList.
Arguments Given {T} v.
Arguments EmptyList {T}.

(** The namespace; [None] is the default of an option that is not
    given. *)
Record namespace := {
  ns_url : option (value string);
  ns_output_format : option (value Format);
  ns_output_name : option (value string)
}.

Definition defaults : namespace :=
  {| ns_url := None; ns_output_format := None; ns_output_name := None |}.

(** What [parse_args] ends with: the namespace, [parser.error], which
    exits with status 2, or the help, after which [parser.exit] exits with
    status 0. *)
Inductive result :=
| Parsed (ns : namespace)
| Usage_error
| Help_shown.

(** [take_action] for a [store] action with one argument string:
    [_get_values] removes the first [--] from the argument strings, checks
    the string that is left against the choices, and the action sets the
    attribute.  [None] is the error of an invalid choice. *)
Definition take_action (d : dest) (arg_string : string) (ns : namespace)
  : option namespace :=
  let dropped := String.eqb arg_string "--" in
  match d with
  | Url =>
      Some {| ns_url := Some (if dropped then EmptyList else Given arg_string);
              ns_output_format := ns_output_format ns;
              ns_output_name := ns_output_name ns |}
  | OutputFormat =>
      if dropped
      then Some {| ns_url := ns_url ns;
                   ns_output_format := Some EmptyList;
                   ns_output_name := ns_output_name ns |}
      else
        match choice arg_string with
        | Some f => Some {| ns_url := ns_url ns;
                            ns_output_format := Some (Given f);
                            ns_output_name := ns_output_name ns |}
        | None => None
        end
  | OutputName =>
      Some {| ns_url := ns_url ns;
              ns_output_format := ns_output_format ns;
              ns_output_name :=
                Some (if dropped then EmptyList else Given arg_string) |}
  end.

(** The tail of [-hxyz]: every letter must be a one-letter option that
    takes no argument, which only [h] is. *)
Fixpoint short_flags (explicit_arg : string) : bool :=
  match explicit_arg with
  | EmptyString => true
  | String c r =>
      match lookup (String "-" (String c EmptyString)) with
      | Some Help => short_flags r
      | _ => false
      end
  end.

(** The help option met with an explicit argument: an error, unless the
    option string is [-h] and the argument is a run of more [h]. *)
Definition help (option_string : string) (explicit_arg : option string)
  : result :=
  match explicit_arg with
  | None => Help_shown
  | Some e =>
      let single_dash :=
        match option_string with
        | String _ (String c _) => negb (Ascii.eqb c "-")
        | _ => false
        end in
      if single_dash && negb (String.eqb e "") && short_flags e
      then Help_shown else Usage_error
  end.

(** The end of [parse_args]: the required options must have been seen,
    and no string may be left over. *)
Definition finish (ns : namespace) (extras : bool) : result :=
  match ns_url ns, ns_output_format ns with
  | Some _, Some _ => if extras then Usage_error else Parsed ns
  | _, _ => Usage_error
  end.

(** The loop of [_parse_known_args].  The parser has no positional
    argument, so a string that is no option and no argument of an option
    is an extra, as is an option the parser does not know; the extras are
    reported once the options are consumed.  An option that stores its
    argument takes the explicit one, or else the next string, which must
    be an argument. *)
Fixpoint consume (ts : list token) (ns : namespace) (extras : bool)
  : result :=
  match ts with
  | [] => finish ns extras
  | A _ :: rest => consume rest ns true
  | DoubleDash :: rest => consume rest ns true
  | O None _ _ :: rest => consume rest ns true
  | O (Some Help) option_string explicit_arg :: _ =>
      help option_string explicit_arg
  | O (Some (Store d)) _ (Some explicit_arg) :: rest =>
      match take_action d explicit_arg ns with
      | Some ns' => consume rest ns' extras
      | None => Usage_error
      end
  | O (Some (Store d)) _ None :: A arg_string :: rest =>
      match take_action d arg_string ns with
      | Some ns' => consume rest ns' extras
      | None => Usage_error
      end
  | O (Some (Store _)) _ None :: _ => Usage_error
  end.

Definition parse_args (argv : list string) : result :=
  match pattern argv with
  | None => Usage_error
  | Some ts => consume ts defaults false
  end.

(** The namespace as [main] uses it, when [url] and [output_format] are
    strings.  [output_name] is only tested for truth before it is used,
    and the empty list is as false as [None]. *)
Definition arguments (ns : namespace) : option Args :=
  match ns_url ns, ns_output_format ns with
  | Some (Given u), Some (Given f) =>
      Some {| url := u;
              output_format := f;
              output_name :=
                match ns_output_name ns with
                | Some (Given n) => Some n
                | _ => None
                end |}
  | _, _ => None
  end.

End Argparse.

(** ** The process *)

(** [main()] from the command line of the process: [parse_args] ends the
    process with status 2 on a command line it rejects and with status 0
    once it has printed the help, whose text is the parameter
    [help_message]; on the namespace it returns, the rest of the body is
    [main] above.  The result is [None] for a namespace in which [url] or
    [output_format] is no string, which the development does not
    cover. *)
Definition script (env : Env) (help_message : string) (argv : list string)
  : option (M unit) :=
  match Argparse.parse_args argv with
  | Argparse.Usage_error => Some (sys_exit 2)
  | Argparse.Help_shown => Some (print help_message;; sys_exit 0)
  | Argparse.Parsed ns => main env <$> Argparse.arguments ns
  end.

(** ** The stages of the pipeline *)

(** [main] is a sequence of four guarded operations between the creation
    of the scratch directory and the publication of the result.  The
    definitions below name the pieces, so that a statement can speak of a
    run that reaches a stage; [main_staged] shows that [main] is their
    composition. *)

Inductive stage := Acquire | ValidateIn | Transcode | ValidateOut.

Section Stages.

Context (env : Env) (args : Args).

Definition setup : M unit :=
  fs_put (λ fs, Fs.makedirs fs (cwd env) temp_dir).

Definition perform (st : stage) : M bool :=
  match st with
  | Acquire => download_font env (url args) (input_path args)
  | ValidateIn => validate_font env (input_path args)
  | Transcode =>
      convert_font env (input_path args) (output_path args)
        (tag (output_format args))
  | ValidateOut => validate_font env (output_path args)
  end.

(** The method a stage calls. *)
Definition method_of (st : stage) : method :=
  match st with
  | Acquire => m_download_font
  | ValidateIn | ValidateOut => m_validate_font
  | Transcode => m_convert_font
  end.

Definition on_failure (st : stage) : M unit :=
  match st with
  | Acquire | Transcode => sys_exit 1
  | ValidateIn => log_error InputInvalid;; sys_exit 1
  | ValidateOut => log_error OutputInvalid;; sys_exit 1
  end.

Definition guard (st : stage) : M unit :=
  ok ← perform st;
  if negb ok then on_failure st else mret tt.

(** The run up to a stage, every earlier stage having succeeded. *)
Definition before (st : stage) : M unit :=
  match st with
  | Acquire => setup
  | ValidateIn => setup;; guard Acquire
  | Transcode => setup;; guard Acquire;; guard ValidateIn
  | ValidateOut => setup;; guard Acquire;; guard ValidateIn;; guard Transcode
  end.

(** What follows the last validation. *)
Definition publish : M unit :=
  input_size ← fs_get (λ fs, Fs.getsize fs (cwd env) (input_path args));
  output_size ← fs_get (λ fs, Fs.getsize fs (cwd env) (output_path args));
  log_info Done;;
  log_info (InputFile (input_filename args) input_size);;
  log_info (OutputFile (output_filename args) output_size);;
  ratio ← percent input_size output_size;
  log_info (Ratio ratio);;
  fs_put (λ fs,
    Fs.rename fs (cwd env) (output_path args) (output_filename args));;
  fs_put (λ fs, Fs.rmtree fs (cwd env) temp_dir);;
  print ("::set-output name=converted_file::" ++ output_filename args);;
  print ("::set-output name=input_size::" ++ pretty input_size);;
  print ("::set-output name=output_size::" ++ pretty output_size).

(** The run from a stage on, once the stage has succeeded. *)
Definition after (st : stage) : M unit :=
  match st with
  | Acquire => guard ValidateIn;; guard Transcode;; guard ValidateOut;; publish
  | ValidateIn => guard Transcode;; guard ValidateOut;; publish
  | Transcode => guard ValidateOut;; publish
  | ValidateOut => publish
  end.

(** The scratch directory, as a location. *)
Definition scratch : list string := cwd env ++ [temp_dir].

End Stages.

(** ** Notions used in the statements *)

(** The event is a call of the method. *)
Definition calls (m : method) (e : event) : Prop := ∃ a, e = Call m a.

(** The event is a line on standard output. *)
Definition printed (e : event) : Prop := ∃ line, e = Stdout line.

(** From [w] to [w'] the trace has only grown, and by events that all
    satisfy [P]. *)
Definition grows_by (P : event → Prop) (w w' : World) : Prop :=
  ∃ evs, trace w' = trace w ++ evs ∧ Forall P evs.

(** From [w] to [w'] the trace has only grown, and by no call of the
    method. *)
Definition never_calls (m : method) (w w' : World) : Prop :=
  grows_by (λ e, ¬ calls m e) w w'.

(** However the computation ends, the events it adds all satisfy [P]. *)
Definition emits {A} (P : event → Prop) (c : M A) : Prop :=
  ∀ w, grows_by P w (c w).2.

(** The extension of a path, in words: the path ends with a dot followed
    by [ext], in which there is neither a dot nor a separator, and before
    that dot the last component of the path holds a character that is not
    a dot. *)
Definition extension_of (path ext : string) : Prop :=
  ∃ dir name,
    path = dir +:+ name +:+ "." +:+ ext ∧
    (dir = "" ∨ Str.endswith "/" dir = true) ∧
    Str.contains "/" name = false ∧
    (∃ c, c ≠ "."%char ∧ Str.contains c name = true) ∧
    Str.contains "." ext = false ∧
    Str.contains "/" ext = false.

(** What the statements need of [str.lower] at an extension: the dot in
    front of it is left where it is, and no dot comes first in the
    lowercased extension. *)
Definition keeps_the_dot (str_lower : string → string) (ext : string)
  : Prop :=
  str_lower ("." +:+ ext) = "." +:+ str_lower ext ∧
  Str.startswith "." (str_lower ext) = false.

(** Lowercasing of ASCII text, by the table of the two alphabets. *)
Definition ascii_lowercase (c : ascii) : ascii :=
  match String.index 0 (String c "") "ABCDEFGHIJKLMNOPQRSTUVWXYZ" with
  | Some i => default c (String.get i "abcdefghijklmnopqrstuvwxyz")
  | None => c
  end.

Fixpoint lowercase (s : string) : string :=
  match s with
  | EmptyString => EmptyString
  | String c r => String (ascii_lowercase c) (lowercase r)
  end.

(** The name the specification describes for the downloaded file: the
    query string is stripped from the URL, then the last path segment is
    taken.  On the string of the URL this is what follows the last slash
    of what precedes the first question mark, which is the last segment of
    the path when the URL has a path and no fragment. *)
Definition last_segment_without_query (url : string) : string :=
  Path.basename (List.hd "" (Str.split "?" url)).

(** ** A small codec and a small network, for concrete runs *)

Module Toy.

(** A container is a four-byte signature followed by one byte per glyph;
    zero bytes after the signature are padding.  The signatures are those
    of the real formats: [OTTO] for a plain sfnt file, [wOFF] and [wOF2]
    for the compressed ones.  The reader takes the flavor from the
    signature, as fontTools does. *)
Definition bytes (s : string) : list byte := list_byte_of_string s.

Definition signature (f : option string) : res (list byte) :=
  match f with
  | None => inr (bytes "OTTO")
  | Some f =>
      if String.eqb f "woff" then inr (bytes "wOFF")
      else if String.eqb f "woff2" then inr (bytes "wOF2")
      else inl (LibError "unsupported flavor")
  end.

Definition is_padding (b : byte) : bool := Byte.eqb b x00.

Definition read (data : list byte) : res (list byte * option string) :=
  let sig := string_of_list_byte (take 4 data) in
  let glyphs := List.filter (λ b, negb (is_padding b)) (drop 4 data) in
  if String.eqb sig "OTTO" then inr (glyphs, None)
  else if String.eqb sig "wOFF" then inr (glyphs, Some "woff")
  else if String.eqb sig "wOF2" then inr (glyphs, Some "woff2")
  else inl (LibError "bad sfntVersion").

Definition glyph_names (glyphs : list byte) : res (list string) :=
  inr (List.map (λ b, String (ascii_of_byte b) EmptyString) glyphs).

Definition write (glyphs : list byte) (f : option string)
  : res (list byte) :=
  match signature f with
  | inl e => inl e
  | inr sig => inr (sig ++ glyphs)
  end.

Definition codec : FontLib :=
  {| Tables := list byte;
     sfnt_read := read;
     glyph_order := glyph_names;
     sfnt_write := write |}.

(** A codec whose writer loses the glyphs: what it writes, its own reader
    finds empty. *)
Definition lossy_codec : FontLib :=
  {| Tables := list byte;
     sfnt_read := read;
     glyph_order := glyph_names;
     sfnt_write := λ _ f, write [] f |}.

(** The network: a plain font with padding, a WOFF font, a font served
    under a URL that ends with a slash, a page that is not a font, a
    missing resource and a transfer that breaks after its first chunk. *)
Definition network (url : string) : res Response :=
  if String.eqb url "http://fonts.test/a.ttf"
  then inr {| status_code := 200;
              chunks := [bytes "OTTOab"; [x00; x00]];
              broken := false |}
  else if String.eqb url "http://fonts.test/b.woff"
  then inr {| status_code := 200;
              chunks := [bytes "wOFFxyz"];
              broken := false |}
  else if String.eqb url "http://fonts.test/b.woff?v=1/2"
  then inr {| status_code := 200;
              chunks := [bytes "wOFFxyz"];
              broken := false |}
  else if String.eqb url "http://fonts.test/latest/"
  then inr {| status_code := 200;
              chunks := [bytes "OTTOab"];
              broken := false |}
  else if String.eqb url "http://fonts.test/page.ttf"
  then inr {| status_code := 200;
              chunks := [bytes "<html>hello</html>"];
              broken := false |}
  else if String.eqb url "http://fonts.test/missing.ttf"
  then inr {| status_code := 404;
              chunks := [bytes "Not Found"];
              broken := false |}
  else if String.eqb url "http://fonts.test/cut.ttf"
  then inr {| status_code := 200;
              chunks := [bytes "OTTOa"];
              broken := true |}
  else inl ConnectionError.

Definition home : list string := ["home"; "ci"].

Definition env : Env :=
  {| lib := codec; http_get := network; cwd := home |}.

Definition lossy_env : Env :=
  {| lib := lossy_codec; http_get := network; cwd := home |}.

(** The world at the start of a run: an empty working directory. *)
Definition start : World :=
  {| fs := {[ ["home"] := Fs.Dir; home := Fs.Dir ]}; trace := [] |}.

(** A working directory in which [temp_fonts] is a regular file. *)
Definition blocked : World :=
  {| fs := {[ ["home"] := Fs.Dir; home := Fs.Dir;
              home ++ ["temp_fonts"] := Fs.File (bytes "notes") ]};
     trace := [] |}.

(** The text of the help. *)
Definition help_message : string :=
  "usage: font_converter.py [-h] --url URL --output-format {ttf,otf,woff,woff2} [--output-name OUTPUT_NAME]".

(** Some command lines, once parsed. *)
Definition same_format : Args :=
  {| url := "http://fonts.test/a.ttf";
     output_format := ttf;
     output_name := None |}.

Definition woff_to_ttf : Args :=
  {| url := "http://fonts.test/b.woff";
     output_format := ttf;
     output_name := None |}.

Definition named_foo : Args :=
  {| url := "http://fonts.test/b.woff";
     output_format := woff2;
     output_name := Some "foo" |}.

Definition named_outside : Args :=
  {| url := "http://fonts.test/b.woff";
     output_format := woff2;
     output_name := Some "../foo" |}.

Definition named_empty : Args :=
  {| url := "http://fonts.test/b.woff";
     output_format := woff2;
     output_name := Some "" |}.

Definition query_with_slash : Args :=
  {| url := "http://fonts.test/b.woff?v=1/2";
     output_format := woff2;
     output_name := None |}.

Definition not_a_font : Args :=
  {| url := "http://fonts.test/page.ttf";
     output_format := woff2;
     output_name := Some "foo" |}.

Definition missing : Args :=
  {| url := "http://fonts.test/missing.ttf";
     output_format := woff2;
     output_name := Some "foo" |}.

Definition no_name : Args :=
  {| url := "http://fonts.test/latest/";
     output_format := woff2;
     output_name := Some "foo" |}.

Definition cut : Args :=
  {| url := "http://fonts.test/cut.ttf";
     output_format := woff2;
     output_name := Some "foo" |}.

(** The world a run is in when it reaches a stage, and the world the
    stage leaves. *)
Definition reached (e : Env) (args : Args) (st : stage) : World :=
  (before e args st start).2.

Definition left (e : Env) (args : Args) (st : stage) : World :=
  (perform e args st (reached e args st)).2.

End Toy.

(** * Properties *)

(** ** Strings and paths *)

Module StrFacts.

Lemma contains_app c a b :
  Str.contains c (a +:+ b) = Str.contains c a || Str.contains c b.
Proof.
  induction a as [|x a IH]; simpl; [done|].
  destruct (Ascii.eqb x c); [done|apply IH].
Qed.

Lemma rfind_lower c s : (-1 ≤ Str.rfind c s)%Z.
Proof.
  induction s as [|a r IH]; simpl; [lia|].
  destruct (Z.leb_spec 0 (Str.rfind c r)); [lia|].
  destruct (Ascii.eqb a c); lia.
Qed.

Lemma rfind_absent c s :
  (Str.rfind c s < 0)%Z → Str.contains c s = false.
Proof.
  induction s as [|a r IH]; simpl; [done|].
  destruct (Z.leb_spec 0 (Str.rfind c r)) as [Hle|Hlt].
  - pose proof (rfind_lower c r). lia.
  - destruct (Ascii.eqb a c); [lia|]. intros _. by apply IH.
Qed.

Lemma rfind_present c s :
  (0 ≤ Str.rfind c s)%Z → Str.contains c s = true.
Proof.
  induction s as [|a r IH]; simpl; [lia|].
  destruct (Z.leb_spec 0 (Str.rfind c r)) as [Hle|Hlt].
  - intros _. rewrite IH by done. by destruct (Ascii.eqb a c).
  - by destruct (Ascii.eqb a c); [|lia].
Qed.

(** Nothing after the index [rfind] returns is the character sought. *)
Lemma rfind_last c s :
  Str.contains c (Str.drop (Z.to_nat (Str.rfind c s + 1)) s) = false.
Proof.
  induction s as [|a r IH]; [done|].
  cbn [Str.rfind].
  destruct (Z.leb_spec 0 (Str.rfind c r)) as [Hle|Hlt].
  - replace (Z.to_nat (Str.rfind c r + 1 + 1))
      with (S (Z.to_nat (Str.rfind c r + 1))) by lia.
    exact IH.
  - destruct (Ascii.eqb a c) eqn:Hac; simpl.
    + by apply rfind_absent.
    + rewrite Hac. by apply rfind_absent.
Qed.

(** The character at the index [rfind] returns is the one sought. *)
Lemma rfind_char c s :
  (0 ≤ Str.rfind c s)%Z →
  ∃ r, Str.drop (Z.to_nat (Str.rfind c s)) s = String c r.
Proof.
  induction s as [|a r IH]; simpl; [lia|].
  destruct (Z.leb_spec 0 (Str.rfind c r)) as [Hle|Hlt].
  - intros _. destruct (IH Hle) as [r' Hr'].
    exists r'. rewrite <- Hr'.
    replace (Z.to_nat (Str.rfind c r + 1))
      with (S (Z.to_nat (Str.rfind c r))) by lia.
    done.
  - destruct (Ascii.eqb_spec a c) as [->|]; [|lia].
    intros _. by exists r.
Qed.

Lemma take_drop n s : Str.take n s +:+ Str.drop n s = s.
Proof.
  revert s. induction n as [|n IH]; intros [|a r]; simpl; [done..|].
  change (String a (Str.take n r +:+ Str.drop n r) = String a r).
  f_equal. apply IH.
Qed.

Lemma drop_S n s : Str.drop (S n) s = Str.drop 1 (Str.drop n s).
Proof.
  revert s. induction n as [|n IH]; intros [|a r]; try reflexivity.
  exact (IH r).
Qed.

Lemma append_empty_r s : s +:+ "" = s.
Proof.
  induction s as [|a r IH]; [done|].
  change (String a (r +:+ "") = String a r). by rewrite IH.
Qed.

Lemma contains_take c n s :
  Str.contains c s = false → Str.contains c (Str.take n s) = false.
Proof.
  intros H. rewrite <- (take_drop n s), contains_app in H.
  by apply orb_false_iff in H as [? _].
Qed.

Lemma split_nonempty sep s : Str.split sep s ≠ [].
Proof.
  destruct s as [|a r]; simpl; [done|].
  destruct (Ascii.eqb a sep); [done|]. by destruct (Str.split sep r).
Qed.

Lemma split_absent sep s :
  Str.contains sep s = false → Str.split sep s = [s].
Proof.
  induction s as [|a r IH]; simpl; [done|].
  destruct (Ascii.eqb a sep); [done|]. intros H. by rewrite IH.
Qed.

Lemma split_app sep a b :
  Str.contains sep a = false →
  Str.split sep (a +:+ String sep b) = a :: Str.split sep b.
Proof.
  induction a as [|x a IH]; simpl.
  - by rewrite Ascii.eqb_refl.
  - destruct (Ascii.eqb x sep); [done|]. intros H. by rewrite IH.
Qed.

(** The first field of a split contains whatever the string does not. *)
Lemma split_hd_absent sep c s :
  Str.contains c s = false →
  Str.contains c (List.hd "" (Str.split sep s)) = false.
Proof.
  induction s as [|a r IH]; simpl; [done|].
  destruct (Ascii.eqb a c) eqn:Hac; [done|]. intros H.
  destruct (Ascii.eqb a sep); [done|].
  specialize (IH H). destruct (Str.split sep r); simpl in *.
  - by rewrite Hac.
  - by rewrite Hac.
Qed.

Lemma lower_char_dot a : Ascii.eqb (Str.lower_char a) "." = Ascii.eqb a ".".
Proof.
  destruct a as [[] [] [] [] [] [] [] []]; reflexivity.
Qed.

Lemma startswith_absent c s :
  Str.contains c s = false → Str.startswith c s = false.
Proof. destruct s as [|a r]; simpl; [done|]. by destruct (Ascii.eqb a c). Qed.

Lemma startswith_app c a b :
  a ≠ "" → Str.startswith c (a +:+ b) = Str.startswith c a.
Proof. by destruct a. Qed.

Lemma contains_lower_dot s :
  Str.contains "." (Str.lower s) = Str.contains "." s.
Proof.
  induction s as [|a r IH]; simpl; [done|].
  by rewrite lower_char_dot, IH.
Qed.

Lemma lstrip_absent c s :
  Str.startswith c s = false → Str.lstrip c s = s.
Proof. destruct s as [|a r]; simpl; [done|]. by intros ->. Qed.

(** [Str.lower] is the lowercasing by the table of the alphabets. *)
Lemma lower_char_table a : Str.lower_char a = ascii_lowercase a.
Proof.
  destruct a as [[] [] [] [] [] [] [] []]; reflexivity.
Qed.

Lemma lower_lowercase s : Str.lower s = lowercase s.
Proof.
  induction s as [|a r IH]; simpl; [done|].
  by rewrite lower_char_table, IH.
Qed.

Lemma lower_keeps_the_dot e :
  Str.contains "." e = false → keeps_the_dot Str.lower e.
Proof.
  intros He. split; [reflexivity|].
  apply startswith_absent. by rewrite contains_lower_dot.
Qed.

Lemma length_app_str a b :
  String.length (a +:+ b) = (String.length a + String.length b)%nat.
Proof. induction a as [|x a IH]; simpl; [done|]. by rewrite IH. Qed.

Lemma app_assoc_str a b c : (a +:+ b) +:+ c = a +:+ (b +:+ c).
Proof.
  induction a as [|x a IH]; [done|].
  change (String x ((a +:+ b) +:+ c) = String x (a +:+ (b +:+ c))).
  by rewrite IH.
Qed.

Lemma take_app a b : Str.take (String.length a) (a +:+ b) = a.
Proof.
  induction a as [|x a IH]; simpl; [by destruct b|].
  change (String x (Str.take (String.length a) (a +:+ b)) = String x a).
  by rewrite IH.
Qed.

Lemma drop_app a b : Str.drop (String.length a) (a +:+ b) = b.
Proof. induction a as [|x a IH]; [done|]. exact IH. Qed.

Lemma drop_drop n m s : Str.drop n (Str.drop m s) = Str.drop (m + n) s.
Proof.
  revert s. induction m as [|m IH]; intros s; [done|].
  destruct s as [|a r]; [by destruct n|]. exact (IH r).
Qed.

Lemma contains_drop c n s :
  Str.contains c s = false → Str.contains c (Str.drop n s) = false.
Proof.
  intros H. rewrite <- (take_drop n s), contains_app in H.
  by apply orb_false_iff in H as [_ ?].
Qed.

Lemma rfind_upper c s : (Str.rfind c s < Z.of_nat (String.length s))%Z.
Proof.
  induction s as [|a r IH]; simpl; [lia|].
  destruct (Z.leb_spec 0 (Str.rfind c r)); [lia|].
  destruct (Ascii.eqb a c); lia.
Qed.

(** [rfind] in a string that ends with a part free of the character. *)
Lemma rfind_app_absent c a s :
  Str.contains c s = false → Str.rfind c (a +:+ s) = Str.rfind c a.
Proof.
  intros Hs. induction a as [|x a IH].
  - change ("" +:+ s) with s. simpl. pose proof (rfind_lower c s).
    destruct (Z.leb_spec 0 (Str.rfind c s)) as [Hle|Hlt]; [|lia].
    apply rfind_present in Hle. congruence.
  - change (String x a +:+ s) with (String x (a +:+ s)).
    cbn [Str.rfind]. by rewrite IH.
Qed.

Lemma rfind_app_last c a s :
  Str.contains c s = false →
  Str.rfind c (a +:+ String c s) = Z.of_nat (String.length a).
Proof.
  intros Hs. induction a as [|x a IH].
  - change ("" +:+ String c s) with (String c s). simpl.
    pose proof (rfind_lower c s).
    destruct (Z.leb_spec 0 (Str.rfind c s)) as [Hle|Hlt].
    + apply rfind_present in Hle. congruence.
    + by rewrite Ascii.eqb_refl.
  - change (String x a +:+ String c s) with (String x (a +:+ String c s)).
    cbn [Str.rfind]. rewrite IH.
    change (String.length (String x a)) with (S (String.length a)).
    destruct (Z.leb_spec 0 (Z.of_nat (String.length a))); lia.
Qed.

Lemma endswith_app_char a c : Str.endswith c (a +:+ String c "") = true.
Proof.
  induction a as [|x a IH]; simpl; [apply Ascii.eqb_refl|].
  destruct (a +:+ String c "") eqn:E; [by destruct a|]. exact IH.
Qed.

(** The prefix that ends with the character [rfind] found. *)
Lemma take_rfind c s :
  (0 ≤ Str.rfind c s)%Z →
  Str.endswith c (Str.take (Z.to_nat (Str.rfind c s + 1)) s) = true.
Proof.
  induction s as [|a r IH]; simpl; [lia|].
  destruct (Z.leb_spec 0 (Str.rfind c r)) as [Hle|Hlt].
  - intros _. specialize (IH Hle).
    replace (Z.to_nat (Str.rfind c r + 1 + 1))
      with (S (Z.to_nat (Str.rfind c r + 1))) by lia.
    cbn [Str.take Str.endswith].
    destruct (Str.take _ r) eqn:E; [done|exact IH].
  - destruct (Ascii.eqb_spec a c) as [->|]; [|lia].
    intros _. simpl. apply Ascii.eqb_refl.
Qed.

End StrFacts.

Module PathFacts.

Import StrFacts.

Lemma basename_no_sep p : Str.contains "/" (Path.basename p) = false.
Proof. apply rfind_last. Qed.

(** [splitext] cuts the path in two. *)
Lemma splitext_app p : (Path.splitext p).1 +:+ (Path.splitext p).2 = p.
Proof.
  unfold Path.splitext.
  destruct (_ && _); simpl; [apply take_drop|].
  apply append_empty_r.
Qed.

(** The extension is empty, or a dot followed by characters none of which
    is a dot. *)
Lemma splitext_ext p :
  (Path.splitext p).2 = "" ∨
  ∃ e, (Path.splitext p).2 = String "." e ∧ Str.contains "." e = false.
Proof.
  unfold Path.splitext.
  destruct (_ && _) eqn:H; simpl; [|by left]. right.
  apply andb_true_iff in H as [Hlt _]. apply Z.ltb_lt in Hlt.
  pose proof (rfind_lower "/" p) as Hsep.
  destruct (rfind_char "." p) as [e He]; [lia|].
  exists e. split; [done|].
  pose proof (rfind_last "." p) as Hlast.
  replace (Z.to_nat (Str.rfind "." p + 1))
    with (S (Z.to_nat (Str.rfind "." p))) in Hlast by lia.
  rewrite drop_S, He in Hlast. exact Hlast.
Qed.

Lemma splitext_root_no_sep p :
  Str.contains "/" p = false → Str.contains "/" (Path.splitext p).1 = false.
Proof.
  intros H. unfold Path.splitext.
  destruct (_ && _); simpl; [by apply contains_take|done].
Qed.

Lemma join_temp (a b : string) :
  a ≠ "" → Str.endswith "/" a = false → Str.startswith "/" b = false →
  Path.join a b = a +:+ "/" +:+ b.
Proof.
  intros Ha He Hb. unfold Path.join. rewrite Hb, He.
  destruct (String.eqb_spec a ""); done.
Qed.

(** [basename], one character at a time. *)
Lemma basename_cons x r :
  Path.basename (String x r) =
  if Str.contains "/" r then Path.basename r
  else if Ascii.eqb x "/" then r else String x r.
Proof.
  unfold Path.basename. cbn [Str.rfind].
  destruct (Z.leb_spec 0 (Str.rfind "/" r)) as [Hle|Hlt].
  - rewrite (rfind_present _ _ Hle).
    replace (Z.to_nat (Str.rfind "/" r + 1 + 1))
      with (S (Z.to_nat (Str.rfind "/" r + 1))) by lia.
    reflexivity.
  - rewrite (rfind_absent _ _ Hlt).
    by destruct (Ascii.eqb x "/").
Qed.

Lemma basename_plain s : Str.contains "/" s = false → Path.basename s = s.
Proof.
  destruct s as [|x r]; [done|]. rewrite basename_cons. simpl.
  destruct (Ascii.eqb x "/"); [done|]. by intros ->.
Qed.

(** What follows the last separator can be extended at will by
    characters that are not the separator. *)
Lemma basename_app a s :
  Str.contains "/" s = false →
  Path.basename (a +:+ s) = Path.basename a +:+ s.
Proof.
  intros Hs. induction a as [|x a IH].
  - by apply basename_plain.
  - change (String x a +:+ s) with (String x (a +:+ s)).
    rewrite !basename_cons, contains_app, Hs, orb_false_r.
    destruct (Str.contains "/" a); [exact IH|].
    by destruct (Ascii.eqb x "/").
Qed.

Lemma contains_basename c p :
  Str.contains c p = false → Str.contains c (Path.basename p) = false.
Proof.
  intros H. unfold Path.basename.
  rewrite <- (take_drop (Z.to_nat (Str.rfind "/" p + 1)) p), contains_app in H.
  by apply orb_false_iff in H as [_ ?].
Qed.

(** The scan for a character other than the dot finds one exactly when
    there is one. *)
Lemma has_non_dot_spec s :
  Path.has_non_dot s = true ↔ ∃ c, c ≠ "."%char ∧ Str.contains c s = true.
Proof.
  induction s as [|a r IH]; simpl.
  - split; [done|]. by intros (c & _ & ?).
  - destruct (Ascii.eqb_spec a ".") as [->|Hne].
    + rewrite IH. split; intros (c & Hc & H); exists c; (split; [done|]).
      * destruct (Ascii.eqb "." c); done.
      * destruct (Ascii.eqb_spec "." c) as [<-|]; done.
    + split; [|done]. intros _. exists a. split; [done|].
      by rewrite Ascii.eqb_refl.
Qed.

(** The extension [splitext] finds is the extension of the path as
    [extension_of] describes it. *)
Lemma extension_of_splitext p e :
  extension_of p e ↔ (Path.splitext p).2 = String "." e.
Proof.
  split.
  - intros (dir & name & -> & Hdir & Hname & Hnd & He & Hes).
    apply has_non_dot_spec in Hnd.
    change ("." +:+ e) with (String "." e).
    rewrite <- app_assoc_str.
    set (root := dir +:+ name).
    assert (Hsep : Str.rfind "/" (root +:+ String "." e)
                   = Str.rfind "/" dir).
    { subst root. rewrite app_assoc_str.
      apply rfind_app_absent. rewrite contains_app, Hname. simpl.
      exact Hes. }
    assert (Hdl : (Str.rfind "/" dir + 1)%Z = Z.of_nat (String.length dir)).
    { destruct Hdir as [->|Hend]; [done|].
      clear -Hend. induction dir as [|x d IH]; [done|].
      cbn [Str.rfind String.length]. destruct d as [|y d'].
      - simpl in *. rewrite Hend. lia.
      - specialize (IH Hend). cbn [String.length] in IH |- *.
        destruct (Z.leb_spec 0 (Str.rfind "/" (String y d'))); lia. }
    unfold Path.splitext. rewrite Hsep, (rfind_app_last _ root e He).
    assert (Hlen : String.length root
                   = (String.length dir + String.length name)%nat)
      by apply length_app_str.
    assert (Hslice : Str.slice (Str.rfind "/" dir + 1)
                       (Z.of_nat (String.length root))
                       (root +:+ String "." e) = name).
    { unfold Str.slice. rewrite Hdl, Nat2Z.id.
      subst root. rewrite app_assoc_str, drop_app.
      replace (Z.to_nat _) with (String.length name) by lia.
      apply take_app. }
    rewrite Hslice, Hnd, andb_true_r.
    assert ((Str.rfind "/" dir <? Z.of_nat (String.length root))%Z = true)
      as -> by (apply Z.ltb_lt; lia).
    cbn [snd]. by rewrite Nat2Z.id, drop_app.
  - unfold Path.splitext.
    destruct (_ && _) eqn:H; simpl; [|done].
    apply andb_true_iff in H as [Hlt Hnd]. apply Z.ltb_lt in Hlt.
    pose proof (rfind_lower "/" p) as Hsep.
    set (sep := Str.rfind "/" p) in *. set (dot := Str.rfind "." p) in *.
    intros Hext.
    exists (Str.take (Z.to_nat (sep + 1)) p),
           (Str.slice (sep + 1) dot p).
    assert (Hname : Str.contains "/" (Str.slice (sep + 1) dot p) = false).
    { unfold Str.slice. apply contains_take, rfind_last. }
    assert (Hdrop : Str.drop (Z.to_nat (dot - (sep + 1)))
                      (Str.drop (Z.to_nat (sep + 1)) p) = String "." e).
    { rewrite drop_drop.
      replace (Z.to_nat (sep + 1) + Z.to_nat (dot - (sep + 1)))%nat
        with (Z.to_nat dot) by lia. done. }
    repeat split.
    + rewrite <- (take_drop (Z.to_nat (sep + 1)) p) at 1. f_equal.
      unfold Str.slice.
      rewrite <- (take_drop (Z.to_nat (dot - (sep + 1)))
                    (Str.drop (Z.to_nat (sep + 1)) p)) at 1.
      by rewrite Hdrop.
    + destruct (Z.leb_spec 0 sep) as [Hle|Hlt'].
      * right. by apply take_rfind.
      * left. by replace (Z.to_nat (sep + 1)) with 0%nat by lia.
    + exact Hname.
    + by apply has_non_dot_spec.
    + pose proof (rfind_last "." p) as Hlast. fold dot in Hlast.
      replace (Z.to_nat (dot + 1)) with (S (Z.to_nat dot)) in Hlast by lia.
      by rewrite drop_S, Hext in Hlast.
    + pose proof (rfind_last "/" p) as Hlast. fold sep in Hlast.
      apply (contains_drop _ (Z.to_nat (dot - (sep + 1)))) in Hlast.
      rewrite Hdrop in Hlast. simpl in Hlast.
      by destruct (Ascii.eqb "." "/").
Qed.

End PathFacts.

(** ** The file system *)

Module FsFacts.

Import StrFacts.

Lemma dirs_kept_refl fs : Fs.dirs_kept fs fs.
Proof. by intros k. Qed.

Lemma dirs_kept_trans fs1 fs2 fs3 :
  Fs.dirs_kept fs1 fs2 → Fs.dirs_kept fs2 fs3 → Fs.dirs_kept fs1 fs3.
Proof. intros H1 H2 k Hk. by apply H2, H1. Qed.

Lemma is_dir_kept fs fs' l :
  Fs.dirs_kept fs fs' → Fs.is_dir fs l = true → Fs.is_dir fs' l = true.
Proof.
  intros Hk. unfold Fs.is_dir. destruct l as [|a l]; [done|].
  destruct (fs !! (a :: l)) as [[]|] eqn:E; try done.
  by rewrite (Hk _ E).
Qed.

Lemma is_dir_false fs l : Fs.is_dir fs l = false → fs !! l ≠ Some Fs.Dir.
Proof.
  unfold Fs.is_dir. destruct l; [done|]. by destruct (fs !! _) as [[]|].
Qed.

(** Writing a file where no directory is keeps the directories. *)
Lemma dirs_kept_insert fs l c :
  Fs.is_dir fs l = false → Fs.dirs_kept fs (<[l := Fs.File c]> fs).
Proof.
  intros Hl k Hk. apply is_dir_false in Hl.
  rewrite lookup_insert_ne; [done|]. by intros ->.
Qed.

Lemma plain_name_spec n :
  Fs.plain_name n = true →
  Str.contains "/" n = false ∧ Fs.special n = false ∧
  String.eqb n ".." = false ∧ n ≠ "".
Proof.
  unfold Fs.plain_name. intros H.
  apply andb_true_iff in H as [H H3]. apply andb_true_iff in H as [H1 H2].
  apply negb_true_iff in H1, H2, H3. repeat split; try done.
  intros ->. done.
Qed.

Lemma origin_relative cwd n :
  Str.contains "/" n = false → Fs.origin cwd n = cwd.
Proof. intros H. unfold Fs.origin. by rewrite startswith_absent. Qed.

(** A plain name is resolved in the working directory. *)
Lemma locate_plain fs cwd n :
  Fs.plain_name n = true → Fs.is_dir fs cwd = true →
  Fs.locate fs cwd n = inr (cwd ++ [n]).
Proof.
  intros Hn Hcwd. apply plain_name_spec in Hn as (Hs & Hsp & Hdd & Hne).
  unfold Fs.locate. rewrite origin_relative by done.
  destruct (String.eqb_spec n ""); [done|].
  rewrite Hcwd, split_absent by done. simpl. by rewrite Hsp, Hdd.
Qed.

(** A name without separator is resolved below a directory of the working
    directory: to the directory itself, to its parent, or to an entry. *)
Lemma locate_below fs cwd d n :
  Fs.plain_name d = true → Str.contains "/" n = false →
  Fs.is_dir fs cwd = true → fs !! (cwd ++ [d]) = Some Fs.Dir →
  Fs.locate fs cwd (d +:+ "/" +:+ n) =
    inr (if Fs.special n then cwd ++ [d]
         else if String.eqb n ".." then Fs.parent (cwd ++ [d])
         else cwd ++ [d; n]).
Proof.
  intros Hd Hn Hcwd Hdir.
  apply plain_name_spec in Hd as (Hs & Hsp & Hdd & Hne).
  unfold Fs.locate.
  assert (Ho : Fs.origin cwd (d +:+ "/" +:+ n) = cwd).
  { unfold Fs.origin.
    by rewrite startswith_app, startswith_absent. }
  assert (Hnil : String.eqb (d +:+ "/" +:+ n) "" = false).
  { destruct d; [done|reflexivity]. }
  rewrite Hnil, Ho, Hcwd. simpl negb. cbv iota.
  change (d +:+ "/" +:+ n) with (d +:+ String "/" n).
  rewrite split_app, (split_absent _ n) by done.
  simpl. rewrite Hsp, Hdd, Hdir.
  destruct (Fs.special n); [done|]. destruct (String.eqb n ".."); [done|].
  by rewrite <- app_assoc.
Qed.

Lemma parent_snoc (l : list string) a : Fs.parent (l ++ [a]) = l.
Proof. apply removelast_last. Qed.

(** [os.makedirs(d, exist_ok=True)] for a plain name: afterwards the
    directory exists, and nothing else has changed. *)
Lemma makedirs_plain fs cwd d fs' :
  Fs.plain_name d = true → Fs.makedirs fs cwd d = inr fs' →
  Fs.is_dir fs cwd = true ∧ fs' !! (cwd ++ [d]) = Some Fs.Dir ∧
  (fs' = fs ∨ (fs !! (cwd ++ [d]) = None ∧ fs' = <[cwd ++ [d] := Fs.Dir]> fs)).
Proof.
  intros Hd. apply plain_name_spec in Hd as (Hs & Hsp & Hdd & Hne).
  unfold Fs.makedirs. rewrite origin_relative by done.
  destruct (String.eqb_spec d ""); [done|].
  destruct (Fs.is_dir fs cwd) eqn:Hcwd; [|done]. simpl.
  rewrite split_absent by done. simpl. rewrite Hsp, Hdd.
  destruct (fs !! (cwd ++ [d])) as [[]|] eqn:E; [done| |].
  - intros [= <-]. auto.
  - rewrite Hcwd. intros [= <-]. rewrite lookup_insert_eq. auto.
Qed.

(** [os.makedirs(d, exist_ok=True)] where [d] is a regular file. *)
Lemma makedirs_file fs cwd d c :
  Fs.plain_name d = true → Fs.is_dir fs cwd = true →
  fs !! (cwd ++ [d]) = Some (Fs.File c) →
  Fs.makedirs fs cwd d = inl FileExistsError.
Proof.
  intros Hd Hcwd Hf. apply plain_name_spec in Hd as (Hs & Hsp & Hdd & Hne).
  unfold Fs.makedirs. rewrite origin_relative by done.
  destruct (String.eqb_spec d ""); [done|].
  rewrite Hcwd. simpl. rewrite split_absent by done. simpl.
  by rewrite Hsp, Hdd, Hf.
Qed.

Lemma open_wb_spec fs cwd p fs' l :
  Fs.open_wb fs cwd p = inr (fs', l) →
  Fs.locate fs cwd p = inr l ∧ Fs.is_dir fs l = false ∧
  fs' = <[l := Fs.File []]> fs.
Proof.
  unfold Fs.open_wb. destruct (Fs.locate fs cwd p) as [|l']; [done|].
  destruct (Fs.is_dir fs l') eqn:E; [done|].
  destruct (negb _); [done|]. by intros [= <- <-].
Qed.

Lemma append_insert fs l c chunk :
  Fs.append (<[l := Fs.File c]> fs) l chunk = <[l := Fs.File (c ++ chunk)]> fs.
Proof.
  unfold Fs.append. by rewrite lookup_insert_eq, insert_insert_eq.
Qed.

Lemma read_file fs cwd p data :
  Fs.read fs cwd p = inr data →
  ∃ l, Fs.locate fs cwd p = inr l ∧ fs !! l = Some (Fs.File data).
Proof.
  unfold Fs.read. destruct (Fs.locate fs cwd p) as [|l]; [done|].
  destruct (fs !! l) as [[c|]|] eqn:E.
  - intros [= <-]. eauto.
  - done.
  - by destruct (Fs.is_dir fs l).
Qed.

Lemma under_refl l : Fs.under l l.
Proof. by exists []; rewrite app_nil_r. Qed.

Lemma under_snoc (l : list string) a : Fs.under l (l ++ [a]).
Proof. by exists [a]. Qed.

Lemma not_under_sibling (l : list string) a b : a ≠ b → ¬ Fs.under (l ++ [a]) (l ++ [b]).
Proof.
  intros Hab [k Hk]. rewrite <- app_assoc in Hk.
  apply app_inv_head in Hk. simpl in Hk. congruence.
Qed.

Lemma remove_tree_lookup l fs k :
  Fs.remove_tree l fs !! k = if decide (Fs.under l k) then None else fs !! k.
Proof.
  unfold Fs.remove_tree. destruct (decide (Fs.under l k)) as [Hu|Hu].
  - apply map_lookup_filter_None. right. intros x _ Hx. by apply Hx.
  - destruct (fs !! k) as [x|] eqn:E.
    + apply map_lookup_filter_Some. split; [done|]. exact Hu.
    + apply map_lookup_filter_None. by left.
Qed.

End FsFacts.

(** ** The methods, run *)

Module Run.

Import StrFacts FsFacts.

Lemma bind_run {A B} (m : M A) (k : A → M B) w :
  (m ≫= k) w =
  match m w with
  | (Val a, w') => k a w'
  | (Raise e, w') => (Raise e, w')
  | (SysExit c, w') => (SysExit c, w')
  end.
Proof. reflexivity. Qed.

Lemma stored_id w : stored w (fs w) = w.
Proof. by destruct w. Qed.

Lemma logged_logged w a b : logged (logged w a) b = logged w (a ++ b).
Proof. unfold logged. simpl. by rewrite app_assoc. Qed.

Lemma logged_stored w a f : logged (stored w f) a = stored (logged w a) f.
Proof. reflexivity. Qed.

(** Two results that differ in the bracketing of their traces. *)
Ltac same_world :=
  unfold logged, stored; simpl; rewrite <- ?app_assoc; reflexivity.

Section WithEnv.

Context (env : Env).

(** The loop of [download_font] leaves in the file all the chunks, in
    order, and fails after them when the transfer breaks. *)
Lemma write_chunks_run l cs b w c :
  fs w !! l = Some (Fs.File c) →
  write_chunks l cs b w =
    (if b then Raise ChunkedEncodingError else Val tt,
     stored w (<[l := Fs.File (c ++ concat cs)]> (fs w))).
Proof.
  revert w c. induction cs as [|chunk rest IH]; intros w c Hl.
  - simpl. rewrite app_nil_r, insert_id, stored_id by done.
    by destruct b.
  - cbn [write_chunks]. rewrite bind_run. unfold write at 1.
    erewrite IH.
    2:{ simpl. unfold Fs.append. rewrite Hl. apply lookup_insert_eq. }
    simpl. unfold Fs.append. rewrite Hl, insert_insert_eq, app_assoc.
    reflexivity.
Qed.

(** [download_font], case by case. *)
Lemma download_font_run u p w :
  download_font env u p w =
  let w1 := logged w [Call m_download_font [u; p]; LogInfo (Downloading u)] in
  match http_get env u with
  | inl e => (Val false, logged w1 [LogError (DownloadFailed e)])
  | inr r =>
      if error_status r
      then (Val false,
            logged w1 [LogError (DownloadFailed (HTTPError (status_code r)))])
      else
        match Fs.open_wb (fs w) (cwd env) p with
        | inl e => (Val false, logged w1 [LogError (DownloadFailed e)])
        | inr (_, l) =>
            let fs' := <[l := Fs.File (concat (chunks r))]> (fs w) in
            if broken r
            then (Val false,
                  stored (logged w1 [LogError (DownloadFailed ChunkedEncodingError)]) fs')
            else (Val true, stored (logged w1 [LogInfo (Downloaded p)]) fs')
        end
  end.
Proof.
  unfold download_font, try_except, requests_get, raise_for_status,
    log_info, log_error, emit, open_wb, lift, raise.
  unfold mbind, M_bind, mret, M_ret. simpl.
  destruct (http_get env u) as [e|r]; simpl; [same_world|].
  destruct (error_status r); simpl; [same_world|].
  destruct (Fs.open_wb (fs w) (cwd env) p) as [e|[fs' l]] eqn:Ho; simpl;
    [same_world|].
  apply open_wb_spec in Ho as (_ & _ & ->).
  erewrite write_chunks_run by (simpl; apply lookup_insert_eq).
  simpl. rewrite insert_insert_eq.
  destruct (broken r); same_world.
Qed.

(** [validate_font] returns a boolean, changes no file, and accepts the
    files that open with glyphs. *)
Lemma validate_font_run p w :
  ∃ b, validate_font env p w = (Val b, logged w [Call m_validate_font [p]]) ∧
       (b = true ↔ opens_with_glyphs env (fs w) p).
Proof.
  unfold validate_font, try_except_all, TTFont_open, getGlyphOrder, close,
    emit, fs_get, lift, raise, opens_with_glyphs.
  unfold mbind, M_bind, mret, M_ret. simpl.
  destruct (Fs.read (fs w) (cwd env) p) as [e|data] eqn:E1; simpl.
  { exists false. split; [done|]. split; [done|].
    intros (?&?&?&?&?&_). congruence. }
  destruct (sfnt_read (lib env) data) as [e|[t f]] eqn:E2; simpl.
  { exists false. split; [done|]. split; [done|].
    intros (d&?&?&?&H1&H2&_).
    assert (d = data) as -> by congruence. congruence. }
  destruct (glyph_order (lib env) t) as [e|order] eqn:E3; simpl.
  { exists false. split; [done|]. split; [done|].
    intros (d&t'&?&?&H1&H2&H3&_).
    assert (d = data) as -> by congruence.
    assert (t' = t) as -> by congruence. congruence. }
  exists (0 <? length order)%nat. split; [done|]. split.
  - intros H. exists data, t, f, order. repeat split; try done.
    intros ->. done.
  - intros (d&t'&?&o'&H1&H2&H3&Hne).
    assert (d = data) as -> by congruence.
    assert (t' = t) as -> by congruence.
    assert (o' = order) as -> by congruence.
    destruct order; [done|reflexivity].
Qed.

(** [convert_font], case by case. *)
Lemma convert_font_run i o fmt w :
  convert_font env i o fmt w =
  let w1 := logged w [Call m_convert_font [i; o; fmt];
                      LogInfo (Converting i o)] in
  let failed e := (Val false, logged w1 [LogError (ConvertFailed e)]) in
  match Fs.read (fs w) (cwd env) i with
  | inl e => failed e
  | inr data =>
      match sfnt_read (lib env) data with
      | inl e => failed e
      | inr (t, f) =>
          let font := retarget env {| tables := t; flavor := f |} fmt in
          match sfnt_write (lib env) (tables env font) (flavor env font) with
          | inl e => failed e
          | inr out =>
              match Fs.open_wb (fs w) (cwd env) o with
              | inl e => failed e
              | inr (_, l) =>
                  (Val true,
                   stored (logged w1 [LogInfo (Converted o)])
                     (<[l := Fs.File out]> (fs w)))
              end
          end
      end
  end.
Proof.
  unfold convert_font, try_except, TTFont_open, save, close, write,
    log_info, log_error, emit, open_wb, fs_get, lift, raise.
  unfold mbind, M_bind, mret, M_ret. simpl.
  destruct (Fs.read (fs w) (cwd env) i) as [e|data]; simpl; [same_world|].
  destruct (sfnt_read (lib env) data) as [e|[t f]]; simpl; [same_world|].
  destruct (sfnt_write _ _ _) as [e|out]; simpl; [same_world|].
  destruct (Fs.open_wb (fs w) (cwd env) o) as [e|[fs' l]] eqn:Ho; simpl;
    [same_world|].
  apply open_wb_spec in Ho as (_ & _ & ->).
  rewrite append_insert. same_world.
Qed.

End WithEnv.

End Run.

(** ** The stages of [main] *)

Module Stages.

Import StrFacts FsFacts Run.

Section WithArgs.

Context (env : Env) (args : Args).

(** Every stage returns a boolean: the methods catch what they raise. *)
Lemma perform_total st w : ∃ b w', perform env args st w = (Val b, w').
Proof.
  destruct st; simpl.
  - rewrite download_font_run. simpl.
    destruct (http_get env _); [eauto|].
    destruct (error_status _); [eauto|].
    destruct (Fs.open_wb _ _ _) as [|[]]; [eauto|].
    destruct (broken _); eauto.
  - destruct (validate_font_run env (input_path args) w) as (b & -> & _).
    eauto.
  - rewrite convert_font_run. simpl.
    destruct (Fs.read _ _ _); [eauto|].
    destruct (sfnt_read _ _) as [|[]]; [eauto|].
    destruct (sfnt_write _ _ _); [eauto|].
    destruct (Fs.open_wb _ _ _) as [|[]]; eauto.
  - destruct (validate_font_run env (output_path args) w) as (b & -> & _).
    eauto.
Qed.

Lemma guard_passed st w w' :
  perform env args st w = (Val true, w') →
  guard env args st w = (Val tt, w').
Proof. intros H. unfold guard. rewrite bind_run, H. reflexivity. Qed.

Lemma guard_failed st w w' :
  perform env args st w = (Val false, w') →
  guard env args st w = on_failure st w'.
Proof. intros H. unfold guard. rewrite bind_run, H. reflexivity. Qed.

Lemma guard_inv st w w' :
  guard env args st w = (Val tt, w') →
  perform env args st w = (Val true, w').
Proof.
  unfold guard. rewrite bind_run.
  destruct (perform_total st w) as ([] & w1 & ->); simpl.
  - by intros [= <-].
  - destruct st; simpl; unfold sys_exit, log_error, emit; try done.
Qed.

(** [main] is the composition of its stages. *)
Lemma main_staged w :
  main env args w =
  (setup env;; guard env args Acquire;; after env args Acquire) w.
Proof.
  unfold main, after, guard, perform, on_failure, publish, setup,
    input_path, output_path.
  rewrite !bind_run.
  destruct (fs_put _ w) as [[[]|?|?] w0]; [|done..].
  rewrite !bind_run.
  destruct (download_font _ _ _ w0) as [[[|]|?|?] w1]; [|done..]. simpl.
  rewrite !bind_run.
  destruct (validate_font _ _ w1) as [[[|]|?|?] w2]; [|done..]. simpl.
  rewrite !bind_run.
  destruct (convert_font _ _ _ _ w2) as [[[|]|?|?] w3]; [|done..]. simpl.
  rewrite !bind_run.
  destruct (validate_font _ _ w3) as [[[|]|?|?] w4]; [|done..]. simpl.
  reflexivity.
Qed.

(** A run that has reached a stage goes on with it. *)
Lemma main_at st w w1 :
  before env args st w = (Val tt, w1) →
  main env args w = (guard env args st;; after env args st) w1.
Proof.
  rewrite main_staged. destruct st; unfold before, after; rewrite !bind_run.
  - by intros ->.
  - destruct (setup env w) as [[[]|?|?] w0]; [|done..].
    cbv beta iota. intros H. rewrite ?bind_run, H. reflexivity.
  - destruct (setup env w) as [[[]|?|?] w0]; [|done..].
    cbv beta iota. rewrite !bind_run.
    destruct (guard env args Acquire w0) as [[[]|?|?] w0']; [|done..].
    cbv beta iota. intros H. rewrite ?bind_run, H. reflexivity.
  - destruct (setup env w) as [[[]|?|?] w0]; [|done..].
    cbv beta iota. rewrite !bind_run.
    destruct (guard env args Acquire w0) as [[[]|?|?] w0']; [|done..].
    cbv beta iota. rewrite !bind_run.
    destruct (guard env args ValidateIn w0') as [[[]|?|?] w0'']; [|done..].
    cbv beta iota. intros H. rewrite ?bind_run, H. reflexivity.
Qed.

(** A failed stage ends the run at once. *)
Lemma main_stage_failed st w w1 w2 :
  before env args st w = (Val tt, w1) →
  perform env args st w1 = (Val false, w2) →
  main env args w = on_failure st w2.
Proof.
  intros Hb Hp. rewrite (main_at st w w1 Hb), bind_run.
  rewrite (guard_failed _ _ _ Hp).
  destruct st; reflexivity.
Qed.

Lemma on_failure_exits st w :
  ∃ w', on_failure st w = (SysExit 1, w') ∧ fs w' = fs w ∧
        ∃ evs, trace w' = trace w ++ evs ∧
               ∀ e, e ∈ evs → e = LogError InputInvalid ∨ e = LogError OutputInvalid.
Proof.
  destruct st; simpl; unfold sys_exit, log_error, emit.
  - exists w. repeat split; try done. exists []. rewrite app_nil_r.
    split; [done|]. by intros e ?%elem_of_nil.
  - eexists. split; [reflexivity|]. split; [done|]. eexists. split; [done|].
    intros e ->%list_elem_of_singleton. auto.
  - exists w. repeat split; try done. exists []. rewrite app_nil_r.
    split; [done|]. by intros e ?%elem_of_nil.
  - eexists. split; [reflexivity|]. split; [done|]. eexists. split; [done|].
    intros e ->%list_elem_of_singleton. auto.
Qed.

(** The stages before a stage, one by one. *)
Lemma before_next st st' w w2 :
  (st, st') ∈ [(Acquire, ValidateIn); (ValidateIn, Transcode);
               (Transcode, ValidateOut)] →
  before env args st' w = (Val tt, w2) ↔
  ∃ w1, before env args st w = (Val tt, w1) ∧
        perform env args st w1 = (Val true, w2).
Proof.
  intros Hin.
  assert (Hcut : ∀ (m : M unit) k w2,
    (m;; guard env args k) w = (Val tt, w2) ↔
    ∃ w1, m w = (Val tt, w1) ∧ perform env args k w1 = (Val true, w2)).
  { intros m k v. rewrite bind_run. split.
    - destruct (m w) as [[[]|?|?] w1]; [|done..].
      intros H%guard_inv. eauto.
    - intros (w1 & -> & H). by apply guard_passed. }
  assert (Hassoc : ∀ (a b c : M unit) v,
    (a;; b;; c) v = ((a;; b);; c) v).
  { intros a b c v. rewrite !bind_run.
    destruct (a v) as [[[]|?|?] ?]; try done. }
  repeat (apply elem_of_cons in Hin as [[= -> ->]|Hin]);
    [| | |by apply elem_of_nil in Hin]; simpl.
  - apply Hcut.
  - rewrite Hassoc. apply Hcut.
  - assert (Hassoc' : ∀ (a b c d : M unit) v,
      (a;; b;; c;; d) v = ((a;; b;; c);; d) v).
    { intros a b c d v. rewrite !bind_run.
      destruct (a v) as [[[]|?|?] ?]; try done. }
    rewrite Hassoc'. apply Hcut.
Qed.

End WithArgs.

End Stages.

(** ** What a computation adds to the trace *)

Module Emits.

Import Run.

Lemma grows_by_refl P w : grows_by P w w.
Proof. exists []. by rewrite app_nil_r. Qed.

Lemma grows_by_trans P w1 w2 w3 :
  grows_by P w1 w2 → grows_by P w2 w3 → grows_by P w1 w3.
Proof.
  intros (e1 & H1 & F1) (e2 & H2 & F2). exists (e1 ++ e2).
  split; [by rewrite H2, H1, app_assoc|]. by apply Forall_app.
Qed.

Lemma grows_by_stored P w w' f :
  grows_by P w w' → grows_by P w (stored w' f).
Proof. by intros (e & H & F); exists e. Qed.

Lemma grows_by_logged P w evs : Forall P evs → grows_by P w (logged w evs).
Proof. intros F. by exists evs. Qed.

Lemma emits_ret {A} P (a : A) : emits P (mret a).
Proof. intros w. apply grows_by_refl. Qed.

Lemma emits_bind {A B} P (c : M A) (k : A → M B) :
  emits P c → (∀ a, emits P (k a)) → emits P (c ≫= k).
Proof.
  intros Hc Hk w. rewrite bind_run. specialize (Hc w).
  destruct (c w) as [[a|e|x] w1]; simpl in *; [|done..].
  eapply grows_by_trans; [exact Hc|apply Hk].
Qed.

Lemma emits_raise {A} P e : emits P (@raise A e).
Proof. intros w. apply grows_by_refl. Qed.

Lemma emits_sys_exit {A} P c : emits P (@sys_exit A c).
Proof. intros w. apply grows_by_refl. Qed.

Lemma emits_lift {A} P (r : res A) : emits P (lift r).
Proof. destruct r; [apply emits_raise|apply emits_ret]. Qed.

Lemma emits_emit (P : event → Prop) e : P e → emits P (emit e).
Proof.
  intros H w. apply grows_by_logged. by apply Forall_singleton.
Qed.

Lemma emits_fs_get {A} (P : event → Prop) (f : Fs.t → res A) :
  emits P (fs_get f).
Proof. intros w. unfold fs_get. apply emits_lift. Qed.

Lemma emits_fs_put (P : event → Prop) f : emits P (fs_put f).
Proof.
  intros w. unfold fs_put.
  destruct (f (fs w)); [apply grows_by_refl|].
  apply grows_by_stored, grows_by_refl.
Qed.

Lemma emits_open_wb (P : event → Prop) cwd p : emits P (open_wb cwd p).
Proof.
  intros w. unfold open_wb.
  destruct (Fs.open_wb _ _ _) as [|[]]; [apply grows_by_refl|].
  apply grows_by_stored, grows_by_refl.
Qed.

Lemma emits_write (P : event → Prop) f chunk : emits P (write f chunk).
Proof. intros w. apply grows_by_stored, grows_by_refl. Qed.

Lemma emits_try_except {A} P (body : M A) handler :
  emits P body → (∀ e, emits P (handler e)) →
  emits P (try_except body handler).
Proof.
  intros Hb Hh w. unfold try_except. specialize (Hb w).
  destruct (body w) as [[a|e|x] w1]; simpl in *; [done| |done].
  eapply grows_by_trans; [exact Hb|apply Hh].
Qed.

Lemma emits_try_except_all {A} P (body handler : M A) :
  emits P body → emits P handler → emits P (try_except_all body handler).
Proof.
  intros Hb Hh w. unfold try_except_all. specialize (Hb w).
  destruct (body w) as [[a|e|x] w1]; simpl in *; [done|..];
    (eapply grows_by_trans; [exact Hb|apply Hh]).
Qed.

Lemma emits_percent (P : event → Prop) a b : emits P (percent a b).
Proof.
  unfold percent. destruct (_ =? _)%Z; [apply emits_raise|apply emits_ret].
Qed.

Create HintDb emits.

#[local] Hint Resolve emits_ret emits_raise emits_sys_exit emits_lift
  emits_fs_get emits_fs_put emits_open_wb emits_write emits_percent : emits.

(** The events of the methods and of the stages are calls and log
    messages: a property of events that holds of those holds of all they
    add to the trace. *)
Section WithEnv.

Context (env : Env) (P : event → Prop).

Hypothesis P_info : ∀ msg, P (LogInfo msg).
Hypothesis P_error : ∀ msg, P (LogError msg).

Lemma emits_log_info msg : emits P (log_info msg).
Proof. by apply emits_emit. Qed.

Lemma emits_log_error msg : emits P (log_error msg).
Proof. by apply emits_emit. Qed.

(** Follows the structure of the program. *)
Ltac emits_step :=
  first
    [ apply emits_bind; [|intros ?]
    | apply emits_try_except; [|intros ?]
    | apply emits_try_except_all
    | apply emits_log_info
    | apply emits_log_error
    | solve [auto with emits]
    | match goal with |- emits _ (if ?b then _ else _) => destruct b end
    | match goal with |- emits _ (let '(_, _) := ?p in _) => destruct p end ].

Lemma emits_write_chunks f cs b : emits P (write_chunks f cs b).
Proof.
  induction cs as [|c cs IH]; simpl.
  - destruct b; auto with emits.
  - apply emits_bind; [auto with emits|]. by intros _.
Qed.

Lemma emits_download_font u p :
  P (Call m_download_font [u; p]) → emits P (download_font env u p).
Proof.
  intros Hm. unfold download_font, requests_get, raise_for_status.
  apply emits_bind; [by apply emits_emit|intros _].
  repeat first [apply emits_write_chunks | emits_step].
Qed.

Lemma emits_TTFont_open p : emits P (TTFont_open env p).
Proof. unfold TTFont_open. repeat emits_step. Qed.

Lemma emits_validate_font p :
  P (Call m_validate_font [p]) → emits P (validate_font env p).
Proof.
  intros Hm. unfold validate_font, getGlyphOrder, close.
  apply emits_bind; [by apply emits_emit|intros _].
  repeat first [apply emits_TTFont_open | emits_step].
Qed.

Lemma emits_convert_font i o fmt :
  P (Call m_convert_font [i; o; fmt]) → emits P (convert_font env i o fmt).
Proof.
  intros Hm. unfold convert_font, save, close.
  apply emits_bind; [by apply emits_emit|intros _].
  repeat first [apply emits_TTFont_open | emits_step].
Qed.

Lemma emits_on_failure st : emits P (on_failure st).
Proof. destruct st; simpl; repeat emits_step. Qed.

Lemma emits_setup : emits P (setup env).
Proof. apply emits_fs_put. Qed.

(** A stage, when [P] holds of the calls of its method. *)
Lemma emits_perform args st :
  (∀ a, P (Call (method_of st) a)) → emits P (perform env args st).
Proof.
  intros H. destruct st; simpl.
  - apply emits_download_font, H.
  - apply emits_validate_font, H.
  - apply emits_convert_font, H.
  - apply emits_validate_font, H.
Qed.

Lemma emits_guard args st :
  (∀ a, P (Call (method_of st) a)) → emits P (guard env args st).
Proof.
  intros H. unfold guard. apply emits_bind; [by apply emits_perform|].
  intros []; simpl; [apply emits_ret|apply emits_on_failure].
Qed.

(** The run up to a stage, when [P] holds of the calls of the methods of
    the stages before it. *)
Lemma emits_before args st :
  (∀ st' a,
     (st', st) ∈ [(Acquire, ValidateIn); (Acquire, Transcode);
                  (ValidateIn, Transcode); (Acquire, ValidateOut);
                  (ValidateIn, ValidateOut); (Transcode, ValidateOut)] →
     P (Call (method_of st') a)) →
  emits P (before env args st).
Proof.
  intros H.
  destruct st; unfold before;
    repeat first
      [ apply emits_setup
      | apply emits_guard; intros a; apply H; by repeat constructor
      | apply emits_bind; [|intros _] ].
Qed.

End WithEnv.

(** No run of [main] calls [detect_font_format]. *)
Lemma main_never_detects env args w :
  never_calls m_detect_font_format w (main env args w).2.
Proof.
  rewrite Stages.main_staged. revert w.
  change (emits (λ e, ¬ calls m_detect_font_format e)
    (setup env;; guard env args Acquire;; after env args Acquire)).
  assert (Hg : ∀ st, emits (λ e, ¬ calls m_detect_font_format e)
                       (guard env args st)).
  { intros st. apply emits_guard; [by intros ? []..|].
    intros a [a' [= E _]]. by destruct st. }
  unfold after, publish, log_info, print.
  repeat first
    [ apply Hg
    | apply emits_setup
    | apply emits_bind; [|intros ?]
    | apply emits_emit; by intros []
    | solve [auto with emits] ].
Qed.

(** The run up to the validation of the input calls [convert_font] at no
    point, nor does that validation. *)
Lemma before_validation_never_converts env args :
  emits (λ e, ¬ calls m_convert_font e) (before env args ValidateIn) ∧
  emits (λ e, ¬ calls m_convert_font e) (perform env args ValidateIn).
Proof.
  split.
  - apply emits_before; [by intros ? []..|].
    intros st' a Hin [a' [= E _]]. destruct st'; try done.
    repeat (apply elem_of_cons in Hin as [Hin|Hin]; [discriminate|]).
    by apply elem_of_nil in Hin.
  - apply emits_perform; [by intros ? []..|]. by intros a [a' [= E _]].
Qed.

End Emits.

(** ** How a run of [main] can end *)

Module Ends.

Import StrFacts PathFacts FsFacts Run Stages.

Section WithArgs.

Context (env : Env) (args : Args).

Lemma setup_cases w :
  (∃ w', setup env w = (Val tt, w')) ∨ (∃ e, setup env w = (Raise e, w)).
Proof.
  unfold setup, fs_put. destruct (Fs.makedirs _ _ _); eauto.
Qed.

Lemma guard_cases st w :
  (∃ w', perform env args st w = (Val true, w') ∧
         guard env args st w = (Val tt, w')) ∨
  (∃ w' w'', perform env args st w = (Val false, w') ∧
             guard env args st w = (SysExit 1, w'')).
Proof.
  destruct (perform_total env args st w) as ([] & w' & H).
  - left. exists w'. split; [done|]. by apply guard_passed.
  - right. destruct (on_failure_exits st w') as (w'' & Hf & _).
    exists w', w''. split; [done|]. by rewrite (guard_failed _ _ _ _ _ H).
Qed.

(** [publish], step by step: it ends normally exactly when the two sizes
    can be read, the input size is not zero, and the renaming and the
    removal succeed. *)
Lemma publish_run w w' :
  publish env args w = (Val tt, w') ↔
  ∃ input_size output_size fs1 fs2,
    Fs.getsize (fs w) (cwd env) (input_path args) = inr input_size ∧
    Fs.getsize (fs w) (cwd env) (output_path args) = inr output_size ∧
    input_size ≠ 0%Z ∧
    Fs.rename (fs w) (cwd env) (output_path args) (output_filename args)
      = inr fs1 ∧
    Fs.rmtree fs1 (cwd env) temp_dir = inr fs2 ∧
    w' = stored (logged w
      [LogInfo Done;
       LogInfo (InputFile (input_filename args) input_size);
       LogInfo (OutputFile (output_filename args) output_size);
       LogInfo (Ratio ((1 - inject_Z output_size / inject_Z input_size) * 100)%Q);
       Stdout ("::set-output name=converted_file::" +:+ output_filename args);
       Stdout ("::set-output name=input_size::" +:+ pretty input_size);
       Stdout ("::set-output name=output_size::" +:+ pretty output_size)]) fs2.
Proof.
  unfold publish, fs_get, fs_put, log_info, print, emit, percent, lift, raise.
  unfold mbind, M_bind, mret, M_ret. cbn [fs logged stored].
  destruct (Fs.getsize (fs w) (cwd env) (input_path args)) as [e|isz] eqn:E1.
  { split; [done|]. intros (?&?&?&?&?&?&?&?&?&?). congruence. }
  destruct (Fs.getsize (fs w) (cwd env) (output_path args)) as [e|osz] eqn:E2.
  { split; [done|]. intros (?&?&?&?&?&?&?&?&?&?). congruence. }
  destruct (Z.eqb_spec isz 0) as [->|Hnz].
  { split; [done|]. intros (?&?&?&?&?&?&?&?&?&?). congruence. }
  cbn [fs logged stored].
  destruct (Fs.rename (fs w) (cwd env) (output_path args)
              (output_filename args)) as [e|fs1] eqn:E4.
  { split; [done|]. intros (?&?&?&?&?&?&?&?&?&?). congruence. }
  cbn [fs logged stored].
  destruct (Fs.rmtree fs1 (cwd env) temp_dir) as [e|fs2] eqn:E5.
  { split; [done|]. intros (?&?&a&?&?&?&?&?&?&?).
    assert (a = fs1) as -> by congruence. congruence. }
  split.
  - intros [= <-]. exists isz, osz, fs1, fs2. repeat split; try done.
    unfold stored, logged. cbn [fs trace]. rewrite <- !app_assoc. done.
  - intros (a&b&c&d&H1&H2&H3&H4&H5&->).
    assert (a = isz) as -> by congruence.
    assert (b = osz) as -> by congruence.
    assert (c = fs1) as -> by congruence.
    assert (d = fs2) as -> by congruence.
    unfold stored, logged. cbn [fs trace]. rewrite <- !app_assoc. done.
Qed.

(** [publish] returns or raises; it does not call [sys.exit]. *)
Lemma publish_cases w :
  (∃ w', publish env args w = (Val tt, w')) ∨
  (∃ e w', publish env args w = (Raise e, w')).
Proof.
  unfold publish, fs_get, fs_put, log_info, print, emit, percent, lift, raise.
  unfold mbind, M_bind, mret, M_ret. cbn [fs logged stored].
  destruct (Fs.getsize _ _ (input_path args)); [eauto|].
  destruct (Fs.getsize _ _ (output_path args)); [eauto|].
  destruct (_ =? _)%Z; [eauto|]. cbn [fs logged stored].
  destruct (Fs.rename _ _ _ _); [eauto|]. cbn [fs logged stored].
  destruct (Fs.rmtree _ _ _); eauto.
Qed.

(** The three ways a run ends: an exception reaches the top level, a
    stage fails and the run exits with status 1, or every stage and the
    publication succeed. *)
Lemma main_cases w :
  (∃ e w', main env args w = (Raise e, w')) ∨
  (∃ st w1 w2 w',
     before env args st w = (Val tt, w1) ∧
     perform env args st w1 = (Val false, w2) ∧
     main env args w = (SysExit 1, w')) ∨
  (∃ w4 w5 w',
     before env args ValidateOut w = (Val tt, w4) ∧
     perform env args ValidateOut w4 = (Val true, w5) ∧
     publish env args w5 = (Val tt, w') ∧
     main env args w = (Val tt, w')).
Proof.
  destruct (setup_cases w) as [[w0 H0]|[e H0]].
  2:{ left. exists e, w. rewrite main_staged, bind_run, H0. done. }
  assert (Hb0 : before env args Acquire w = (Val tt, w0)) by done.
  assert (Hstep : ∀ st w1,
    before env args st w = (Val tt, w1) →
    (∃ w2 w', perform env args st w1 = (Val false, w2) ∧
              main env args w = (SysExit 1, w')) ∨
    (∃ w2, perform env args st w1 = (Val true, w2) ∧
           main env args w = after env args st w2)).
  { intros st w1 Hb. rewrite (main_at env args st w w1 Hb), bind_run.
    destruct (guard_cases st w1) as [(w2 & Hp & ->)|(w2 & w' & Hp & ->)].
    - right. eauto.
    - left. eauto. }
  destruct (Hstep _ _ Hb0) as [(w2 & w' & Hp & Hm)|(w1 & Hp1 & _)].
  { right; left. by exists Acquire, w0, w2, w'. }
  assert (Hb1 : before env args ValidateIn w = (Val tt, w1)).
  { apply (before_next env args Acquire); [by repeat constructor|eauto]. }
  destruct (Hstep _ _ Hb1) as [(w2' & w' & Hp & Hm)|(w2 & Hp2 & _)].
  { right; left. by exists ValidateIn, w1, w2', w'. }
  assert (Hb2 : before env args Transcode w = (Val tt, w2)).
  { apply (before_next env args ValidateIn); [by repeat constructor|eauto]. }
  destruct (Hstep _ _ Hb2) as [(w3' & w' & Hp & Hm)|(w3 & Hp3 & _)].
  { right; left. by exists Transcode, w2, w3', w'. }
  assert (Hb3 : before env args ValidateOut w = (Val tt, w3)).
  { apply (before_next env args Transcode); [by repeat constructor|eauto]. }
  destruct (Hstep _ _ Hb3) as [(w4' & w' & Hp & Hm)|(w4 & Hp4 & Hm)].
  { right; left. by exists ValidateOut, w3, w4', w'. }
  simpl in Hm.
  destruct (publish_cases w4) as [(w' & Hpub)|(e & w' & Hpub)].
  - right; right. exists w3, w4, w'. by rewrite Hm.
  - left. exists e, w'. by rewrite Hm.
Qed.

(** Every stage keeps the directories there are. *)
Lemma perform_keeps_dirs st w b w' :
  perform env args st w = (Val b, w') → Fs.dirs_kept (fs w) (fs w').
Proof.
  destruct st; simpl.
  - rewrite download_font_run. cbv zeta.
    destruct (http_get env _); [intros [= _ <-]; apply dirs_kept_refl|].
    destruct (error_status _); [intros [= _ <-]; apply dirs_kept_refl|].
    destruct (Fs.open_wb _ _ _) as [|[fs1 loc]] eqn:Ho; [intros [= _ <-]; apply dirs_kept_refl|].
    apply open_wb_spec in Ho as (_ & Hd & _).
    destruct (broken _); intros [= _ <-]; by apply dirs_kept_insert.
  - destruct (validate_font_run env (input_path args) w) as (b' & -> & _).
    intros [= _ <-]; apply dirs_kept_refl.
  - rewrite convert_font_run. cbv zeta.
    destruct (Fs.read _ _ _); [intros [= _ <-]; apply dirs_kept_refl|].
    destruct (sfnt_read _ _) as [|[]]; [intros [= _ <-]; apply dirs_kept_refl|].
    destruct (sfnt_write _ _ _); [intros [= _ <-]; apply dirs_kept_refl|].
    destruct (Fs.open_wb _ _ _) as [|[fs1 loc]] eqn:Ho; [intros [= _ <-]; apply dirs_kept_refl|].
    apply open_wb_spec in Ho as (_ & Hd & _).
    intros [= _ <-]. by apply dirs_kept_insert.
  - destruct (validate_font_run env (output_path args) w) as (b' & -> & _).
    intros [= _ <-]; apply dirs_kept_refl.
Qed.

Lemma temp_dir_plain : Fs.plain_name temp_dir = true.
Proof. reflexivity. Qed.

(** Once the run has reached a stage, the working directory and the
    scratch directory exist. *)
Lemma before_dirs st w w1 :
  before env args st w = (Val tt, w1) →
  Fs.is_dir (fs w1) (cwd env) = true ∧
  fs w1 !! scratch env = Some Fs.Dir.
Proof.
  assert (H0 : ∀ w1, before env args Acquire w = (Val tt, w1) →
    Fs.is_dir (fs w1) (cwd env) = true ∧ fs w1 !! scratch env = Some Fs.Dir).
  { intros v. simpl. unfold setup, fs_put.
    destruct (Fs.makedirs _ _ _) as [|fs'] eqn:Hm; [done|].
    intros [= <-]. simpl.
    apply makedirs_plain in Hm as (Hc & Hs & Hfs); [|apply temp_dir_plain].
    split; [|done].
    destruct Hfs as [->|[_ ->]]; [done|].
    eapply is_dir_kept; [|exact Hc].
    intros k Hk. destruct (decide (cwd env ++ [temp_dir] = k)) as [<-|].
    - apply lookup_insert_eq.
    - by rewrite lookup_insert_ne. }
  assert (Hnext : ∀ st w1 b w2,
    Fs.is_dir (fs w1) (cwd env) = true ∧ fs w1 !! scratch env = Some Fs.Dir →
    perform env args st w1 = (Val b, w2) →
    Fs.is_dir (fs w2) (cwd env) = true ∧ fs w2 !! scratch env = Some Fs.Dir).
  { intros s v b v' [Hc Hs] Hp. apply perform_keeps_dirs in Hp.
    split; [by eapply is_dir_kept|by apply Hp]. }
  revert w1. destruct st; [exact H0|..]; intros w1 Hb.
  - apply (before_next env args Acquire) in Hb as (v0 & Hb & Hp);
      [|by repeat constructor].
    eauto.
  - apply (before_next env args ValidateIn) in Hb as (v1 & Hb & Hp1);
      [|by repeat constructor].
    apply (before_next env args Acquire) in Hb as (v0 & Hb & Hp0);
      [|by repeat constructor].
    eauto.
  - apply (before_next env args Transcode) in Hb as (v2 & Hb & Hp2);
      [|by repeat constructor].
    apply (before_next env args ValidateIn) in Hb as (v1 & Hb & Hp1);
      [|by repeat constructor].
    apply (before_next env args Acquire) in Hb as (v0 & Hb & Hp0);
      [|by repeat constructor].
    eauto 6.
Qed.

(** [shutil.rmtree(temp_dir)] removes the scratch directory with all it
    holds. *)
Lemma rmtree_temp fs1 fs2 :
  Fs.rmtree fs1 (cwd env) temp_dir = inr fs2 →
  fs2 = Fs.remove_tree (scratch env) fs1 ∧
  Fs.is_dir fs1 (cwd env) = true ∧
  fs1 !! scratch env = Some Fs.Dir.
Proof.
  unfold Fs.rmtree.
  destruct (Fs.is_dir fs1 (cwd env)) eqn:Hc.
  - rewrite locate_plain by done.
    fold (scratch env). destruct (fs1 !! scratch env) as [[]|]; try done.
    by intros [= <-].
  - unfold Fs.locate. simpl. unfold Fs.origin. simpl. by rewrite Hc.
Qed.

End WithArgs.

End Ends.

(** ** What [convert_font] writes *)

Module Convert.

Import StrFacts FsFacts Run.

(** The flavor the font object has when [save] is reached: the two
    compressed targets set it, [ttf] and [otf] leave the one the reader
    found in the input. *)
Lemma retarget_flavor env (font : TTFont env) (fmt : Format) :
  flavor env (retarget env font (tag fmt)) =
  match fmt with
  | woff | woff2 => Some (tag fmt)
  | ttf | otf => flavor env font
  end.
Proof. by destruct fmt. Qed.

(** What a successful conversion has written: the tables of the input,
    serialised with the flavor [retarget] leaves. *)
Lemma convert_font_written env i o fmt w w' :
  convert_font env i o fmt w = (Val true, w') →
  ∃ data t f out l,
    Fs.read (fs w) (cwd env) i = inr data ∧
    sfnt_read (lib env) data = inr (t, f) ∧
    sfnt_write (lib env) t
      (flavor env (retarget env {| tables := t; flavor := f |} fmt))
      = inr out ∧
    Fs.locate (fs w) (cwd env) o = inr l ∧
    Fs.is_dir (fs w) l = false ∧
    fs w' = <[l := Fs.File out]> (fs w).
Proof.
  rewrite convert_font_run. cbv zeta.
  destruct (Fs.read _ _ _) as [|data] eqn:E1; [done|].
  destruct (sfnt_read _ _) as [|[t f]] eqn:E2; [done|].
  destruct (sfnt_write _ _ _) as [|out] eqn:E3; [done|].
  destruct (Fs.open_wb _ _ _) as [|[fs1 l]] eqn:E4; [done|].
  apply open_wb_spec in E4 as (Hl & Hd & _).
  intros [= <-]. exists data, t, f, out, l.
  repeat split; try done.
  assert (tables env (retarget env {| tables := t; flavor := f |} fmt) = t)
    as Ht.
  { unfold retarget. by repeat case_match. }
  by rewrite Ht in E3.
Qed.

End Convert.

(** ** The published file *)

Module Published.

Import StrFacts PathFacts FsFacts Run Stages Ends Convert.

Lemma length_append a b :
  String.length (a +:+ b) = (String.length a + String.length b)%nat.
Proof.
  induction a as [|x a IH]; [done|].
  change (S (String.length (a +:+ b))
          = S (String.length a + String.length b)%nat).
  by rewrite IH.
Qed.

Lemma tag_length fmt : (3 ≤ String.length (tag fmt))%nat.
Proof. destruct fmt; simpl; lia. Qed.

Lemma tag_no_sep fmt : Str.contains "/" (tag fmt) = false.
Proof. by destruct fmt. Qed.

(** A base name without separator, a dot and a format tag make a plain
    name, and one that is not the name of the scratch directory. *)
Lemma dotted_plain x fmt :
  Str.contains "/" x = false →
  Fs.plain_name (x +:+ "." +:+ tag fmt) = true ∧
  x +:+ "." +:+ tag fmt ≠ temp_dir.
Proof.
  intros Hx.
  assert (Hlen : (4 ≤ String.length (x +:+ "." +:+ tag fmt))%nat).
  { rewrite !length_append. pose proof (tag_length fmt). simpl. lia. }
  split.
  - unfold Fs.plain_name, Fs.special.
    rewrite !contains_app, Hx, tag_no_sep. simpl.
    destruct (String.eqb_spec (x +:+ "." +:+ tag fmt) "") as [E|_];
      [rewrite E in Hlen; simpl in Hlen; lia|].
    destruct (String.eqb_spec (x +:+ "." +:+ tag fmt) ".") as [E|_];
      [rewrite E in Hlen; simpl in Hlen; lia|].
    destruct (String.eqb_spec (x +:+ "." +:+ tag fmt) "..") as [E|_];
      [rewrite E in Hlen; simpl in Hlen; lia|].
    done.
  - intros E.
    assert (Hdot : Str.contains "." (x +:+ "." +:+ tag fmt) = true).
    { rewrite !contains_app. simpl. by rewrite orb_true_r. }
    rewrite E in Hdot. done.
Qed.

Lemma input_filename_no_sep args :
  Str.contains "/" (input_filename args) = false.
Proof. apply split_hd_absent, basename_no_sep. Qed.

(** The name of the output is plain as soon as the name given on the
    command line has no separator. *)
Lemma output_filename_plain args :
  (∀ s, output_name args = Some s → Str.contains "/" s = false) →
  Fs.plain_name (output_filename args) = true ∧
  output_filename args ≠ temp_dir.
Proof.
  intros Hname. unfold output_filename.
  destruct (truthy (output_name args)) eqn:Ht.
  - destruct (output_name args) as [s|]; [|done].
    apply dotted_plain. by apply Hname.
  - apply dotted_plain, splitext_root_no_sep, input_filename_no_sep.
Qed.

Lemma join_temp_dir n :
  Str.contains "/" n = false →
  Path.join temp_dir n = temp_dir +:+ "/" +:+ n.
Proof.
  intros Hn. apply join_temp; [done..|]. by apply startswith_absent.
Qed.

Section WithArgs.

Context (env : Env) (args : Args).

(** A file written in the scratch directory under a name without
    separator is an entry of the scratch directory. *)
Lemma locate_scratch_entry fs0 n l :
  Str.contains "/" n = false →
  Fs.is_dir fs0 (cwd env) = true →
  fs0 !! scratch env = Some Fs.Dir →
  Fs.locate fs0 (cwd env) (Path.join temp_dir n) = inr l →
  Fs.is_dir fs0 l = false →
  l = scratch env ++ [n] ∧ Fs.plain_name n = true.
Proof.
  intros Hn Hc Hs. rewrite join_temp_dir by done.
  rewrite (locate_below fs0 (cwd env) temp_dir n) by done.
  fold (scratch env). unfold Fs.plain_name. rewrite Hn.
  destruct (Fs.special n) eqn:Hsp.
  { intros [= <-] Hd. unfold Fs.is_dir in Hd. rewrite Hs in Hd.
    unfold scratch in Hd. by destruct (cwd env). }
  destruct (String.eqb n "..") eqn:Hdd.
  { intros [= <-]. unfold scratch. rewrite parent_snoc. congruence. }
  intros [= <-] _. split; [|done]. unfold scratch.
  by rewrite <- app_assoc.
Qed.

Lemma download_written w w' :
  perform env args Acquire w = (Val true, w') →
  ∃ l data,
    Fs.locate (fs w) (cwd env) (input_path args) = inr l ∧
    Fs.is_dir (fs w) l = false ∧
    fs w' = <[l := Fs.File data]> (fs w).
Proof.
  simpl. rewrite download_font_run. cbv zeta.
  destruct (http_get env _); [done|].
  destruct (error_status _); [done|].
  destruct (Fs.open_wb _ _ _) as [|[fs1 l]] eqn:Ho; [done|].
  apply open_wb_spec in Ho as (Hl & Hd & _).
  destruct (broken _); [done|]. intros [= <-]. eauto.
Qed.

Lemma validate_unchanged p w b w' :
  validate_font env p w = (Val b, w') → fs w' = fs w.
Proof.
  destruct (validate_font_run env p w) as (b' & -> & _). by intros [= _ <-].
Qed.

(** Renaming a file of the scratch directory to a plain name of the
    working directory. *)
Lemma rename_out fs0 n data fs1 :
  Fs.plain_name n = true →
  Fs.is_dir fs0 (cwd env) = true →
  fs0 !! scratch env = Some Fs.Dir →
  fs0 !! (scratch env ++ [n]) = Some (Fs.File data) →
  Fs.rename fs0 (cwd env) (Path.join temp_dir n) n = inr fs1 →
  fs1 = <[cwd env ++ [n] := Fs.File data]> (delete (scratch env ++ [n]) fs0).
Proof.
  intros Hn Hc Hs Hf. unfold Fs.rename.
  pose proof (plain_name_spec n Hn) as (Hsep & Hsp & Hdd & _).
  rewrite join_temp_dir by done.
  rewrite (locate_below fs0 (cwd env) temp_dir n) by done.
  rewrite Hsp, Hdd, (locate_plain fs0 (cwd env) n) by done.
  replace (cwd env ++ [temp_dir; n]) with (scratch env ++ [n])
    by (unfold scratch; by rewrite <- app_assoc).
  rewrite Hf.
  destruct (Fs.is_dir fs0 (cwd env ++ [n])); [done|].
  destruct (negb _); [done|]. by intros [= <-].
Qed.

End WithArgs.

Section BeforePublish.

Context (env : Env) (args : Args).

(** A successful run whose output name is plain, just before the
    publication: the converted file is an entry of the scratch directory,
    it opens as a font with glyphs, and outside the scratch directory the
    file system is as it was at the start. *)
Lemma run_before_publish w w' :
  main env args w = (Val tt, w') →
  (∀ s, output_name args = Some s → Str.contains "/" s = false) →
  ∃ w5 out t f order,
    publish env args w5 = (Val tt, w') ∧
    Fs.is_dir (fs w5) (cwd env) = true ∧
    fs w5 !! scratch env = Some Fs.Dir ∧
    fs w5 !! (scratch env ++ [output_filename args]) = Some (Fs.File out) ∧
    sfnt_read (lib env) out = inr (t, f) ∧
    glyph_order (lib env) t = inr order ∧
    order ≠ [] ∧
    (∀ l, ¬ Fs.under (scratch env) l → fs w5 !! l = fs w !! l).
Proof.
  intros Hm Hname.
  destruct (main_cases env args w)
    as [(e & v & Hm')|[(st & v1 & v2 & v & _ & _ & Hm')
                      |(w4 & w5 & v & Hb4 & Hp4 & Hpub & Hm')]];
    [congruence..|].
  assert (v = w') as -> by congruence. clear Hm'.
  (* the worlds between the stages *)
  pose proof Hb4 as Hb3.
  apply (before_next env args Transcode) in Hb3 as (w3 & Hb3 & Hp3);
    [|by repeat constructor].
  pose proof Hb3 as Hb2.
  apply (before_next env args ValidateIn) in Hb2 as (w2 & Hb2 & Hp2);
    [|by repeat constructor].
  pose proof Hb2 as Hb1.
  apply (before_next env args Acquire) in Hb1 as (w1 & Hb1 & Hp1);
    [|by repeat constructor].
  destruct (before_dirs env args _ _ _ Hb1) as [Hc1 Hs1].
  destruct (before_dirs env args _ _ _ Hb3) as [Hc3 Hs3].
  destruct (before_dirs env args _ _ _ Hb4) as [Hc4 Hs4].
  (* the scratch directory is made *)
  assert (Hfs1 : ∀ l, ¬ Fs.under (scratch env) l → fs w1 !! l = fs w !! l).
  { intros l Hl. simpl in Hb1. unfold setup, fs_put in Hb1.
    destruct (Fs.makedirs _ _ _) as [|fs'] eqn:Hmk; [done|].
    injection Hb1 as <-. cbn [stored fs].
    apply makedirs_plain in Hmk as (_ & _ & [->|[_ ->]]); [done| |done].
    apply lookup_insert_ne. intros <-. apply Hl, under_refl. }
  (* the download is written in it *)
  destruct (download_written env args _ _ Hp1) as (li & di & Hli & Hdi & Hfs2).
  destruct (locate_scratch_entry env (fs w1) _ _ (input_filename_no_sep args)
              Hc1 Hs1 Hli Hdi) as [-> _].
  pose proof (validate_unchanged env _ _ _ _ Hp2) as Hfs3.
  (* the converted file is written in it *)
  destruct (output_filename_plain args Hname) as [Hplain Hnot].
  pose proof (plain_name_spec _ Hplain) as (Hsep & _ & _ & _).
  destruct (convert_font_written env _ _ _ _ _ Hp3)
    as (d0 & t0 & f0 & out & lo & _ & _ & _ & Hlo & Hdo & Hfs4).
  destruct (locate_scratch_entry env (fs w3) _ _ Hsep Hc3 Hs3 Hlo Hdo)
    as [-> _].
  (* it is the file the last validation reads *)
  pose proof (validate_unchanged env _ _ _ _ Hp4) as Hfs5.
  destruct (validate_font_run env (output_path args) w4) as (b & Hv & Hb).
  simpl in Hp4. rewrite Hp4 in Hv. injection Hv as <-.
  destruct (proj1 Hb eq_refl) as (data & t & f & order & Hrd & Hsr & Hgo & Hne).
  apply read_file in Hrd as (lr & Hlr & Hdata).
  assert (Hout : fs w4 !! (scratch env ++ [output_filename args])
                 = Some (Fs.File out)).
  { rewrite Hfs4. apply lookup_insert_eq. }
  assert (lr = scratch env ++ [output_filename args]) as ->.
  { unfold output_path in Hlr. rewrite join_temp_dir in Hlr by done.
    rewrite (locate_below (fs w4) (cwd env) temp_dir) in Hlr by done.
    pose proof (plain_name_spec _ Hplain) as (_ & Hsp & Hdd & _).
    rewrite Hsp, Hdd in Hlr. injection Hlr as <-.
    unfold scratch. by rewrite <- app_assoc. }
  assert (data = out) as -> by congruence.
  exists w5, out, t, f, order.
  rewrite Hfs5. repeat split; try done.
  intros l Hnu. rewrite Hfs4.
  rewrite lookup_insert_ne by (intros <-; apply Hnu, under_snoc).
  rewrite Hfs3, Hfs2.
  rewrite lookup_insert_ne by (intros <-; apply Hnu, under_snoc).
  by apply Hfs1.
Qed.

(** The size [os.path.getsize] reports for a file of the scratch
    directory. *)
Lemma getsize_scratch_entry fs0 n data :
  Fs.plain_name n = true →
  Fs.is_dir fs0 (cwd env) = true →
  fs0 !! scratch env = Some Fs.Dir →
  fs0 !! (scratch env ++ [n]) = Some (Fs.File data) →
  Fs.getsize fs0 (cwd env) (Path.join temp_dir n)
  = inr (Z.of_nat (length data)).
Proof.
  intros Hn Hc Hs Hf. unfold Fs.getsize.
  pose proof (plain_name_spec n Hn) as (Hsep & Hsp & Hdd & _).
  rewrite join_temp_dir by done.
  rewrite (locate_below fs0 (cwd env) temp_dir n) by done.
  rewrite Hsp, Hdd.
  replace (cwd env ++ [temp_dir; n]) with (scratch env ++ [n])
    by (unfold scratch; by rewrite <- app_assoc).
  by rewrite Hf.
Qed.

End BeforePublish.

End Published.

(** ** More on the runs of [main] *)

Module Runs.

Import StrFacts PathFacts FsFacts Run Stages Emits Ends Convert Published.

Section WithArgs.

Context (env : Env) (args : Args).

Lemma download_true_trace u p w w' :
  download_font env u p w = (Val true, w') →
  trace w' = trace w ++
    [Call m_download_font [u; p]; LogInfo (Downloading u);
     LogInfo (Downloaded p)].
Proof.
  rewrite download_font_run. cbv zeta.
  destruct (http_get env _); [done|].
  destruct (error_status _); [done|].
  destruct (Fs.open_wb _ _ _) as [|[]]; [done|].
  destruct (broken _); [done|]. intros [= <-].
  unfold stored, logged. cbn [trace]. by rewrite <- app_assoc.
Qed.

Lemma validate_trace p w b w' :
  validate_font env p w = (Val b, w') →
  trace w' = trace w ++ [Call m_validate_font [p]].
Proof.
  destruct (validate_font_run env p w) as (b' & -> & _). by intros [= _ <-].
Qed.

Lemma convert_true_trace i o fmt w w' :
  convert_font env i o fmt w = (Val true, w') →
  trace w' = trace w ++
    [Call m_convert_font [i; o; fmt]; LogInfo (Converting i o);
     LogInfo (Converted o)].
Proof.
  rewrite convert_font_run. cbv zeta.
  destruct (Fs.read _ _ _); [done|].
  destruct (sfnt_read _ _) as [|[]]; [done|].
  destruct (sfnt_write _ _ _); [done|].
  destruct (Fs.open_wb _ _ _) as [|[]]; [done|]. intros [= <-].
  unfold stored, logged. cbn [trace]. by rewrite <- app_assoc.
Qed.

Lemma setup_trace w w' : setup env w = (Val tt, w') → trace w' = trace w.
Proof.
  unfold setup, fs_put. destruct (Fs.makedirs _ _ _); [done|].
  by intros [= <-].
Qed.

(** A failed conversion has written nothing. *)
Lemma convert_false_unchanged i o fmt w w' :
  convert_font env i o fmt w = (Val false, w') → fs w' = fs w.
Proof.
  rewrite convert_font_run. cbv zeta.
  destruct (Fs.read _ _ _); [by intros [= <-]|].
  destruct (sfnt_read _ _) as [|[]]; [by intros [= <-]|].
  destruct (sfnt_write _ _ _); [by intros [= <-]|].
  destruct (Fs.open_wb _ _ _) as [|[]]; [by intros [= <-]|]. done.
Qed.

(** The download changes nothing outside the scratch directory, whether
    it succeeds or not. *)
Lemma download_outside w b w' :
  Fs.is_dir (fs w) (cwd env) = true →
  fs w !! scratch env = Some Fs.Dir →
  perform env args Acquire w = (Val b, w') →
  ∀ l, ¬ Fs.under (scratch env) l → fs w' !! l = fs w !! l.
Proof.
  intros Hc Hs. simpl. rewrite download_font_run. cbv zeta.
  destruct (http_get env _); [by intros [= _ <-]|].
  destruct (error_status _); [by intros [= _ <-]|].
  destruct (Fs.open_wb _ _ _) as [|[fs1 lo]] eqn:Ho; [by intros [= _ <-]|].
  apply open_wb_spec in Ho as (Hl & Hd & _).
  destruct (locate_scratch_entry env (fs w) _ _ (input_filename_no_sep args)
              Hc Hs Hl Hd) as [-> _].
  destruct (broken _); intros [= _ <-] l Hnu; cbn [stored fs];
    (rewrite lookup_insert_ne; [done|]; intros <-; apply Hnu, under_snoc).
Qed.

(** Up to a stage, the run changes nothing outside the scratch
    directory; for the stages after the conversion this needs an output
    name without separator. *)
Lemma before_outside st w w1 :
  before env args st w = (Val tt, w1) →
  (st = ValidateOut →
   ∀ s, output_name args = Some s → Str.contains "/" s = false) →
  ∀ l, ¬ Fs.under (scratch env) l → fs w1 !! l = fs w !! l.
Proof.
  assert (H0 : ∀ v, before env args Acquire w = (Val tt, v) →
    ∀ l, ¬ Fs.under (scratch env) l → fs v !! l = fs w !! l).
  { intros v Hb l Hl. simpl in Hb. unfold setup, fs_put in Hb.
    destruct (Fs.makedirs _ _ _) as [|fs'] eqn:Hmk; [done|].
    injection Hb as <-. cbn [stored fs].
    apply makedirs_plain in Hmk as (_ & _ & [->|[_ ->]]); [done| |done].
    apply lookup_insert_ne. intros <-. apply Hl, under_refl. }
  assert (H1 : ∀ v, before env args ValidateIn w = (Val tt, v) →
    ∀ l, ¬ Fs.under (scratch env) l → fs v !! l = fs w !! l).
  { intros v Hb l Hl.
    apply (before_next env args Acquire) in Hb as (v0 & Hb & Hp);
      [|by repeat constructor].
    destruct (before_dirs env args _ _ _ Hb) as [Hc Hs].
    rewrite (download_outside _ _ _ Hc Hs Hp l Hl). by apply H0. }
  assert (H2 : ∀ v, before env args Transcode w = (Val tt, v) →
    ∀ l, ¬ Fs.under (scratch env) l → fs v !! l = fs w !! l).
  { intros v Hb l Hl.
    apply (before_next env args ValidateIn) in Hb as (v1 & Hb & Hp);
      [|by repeat constructor].
    rewrite (validate_unchanged env _ _ _ _ Hp). by apply H1. }
  destruct st; [intros Hb _; by apply H0|intros Hb _; by apply H1
               |intros Hb _; by apply H2|].
  intros Hb Hname l Hl. specialize (Hname eq_refl).
  apply (before_next env args Transcode) in Hb as (v2 & Hb & Hp);
    [|by repeat constructor].
  destruct (before_dirs env args _ _ _ Hb) as [Hc Hs].
  destruct (output_filename_plain args Hname) as [Hplain _].
  pose proof (plain_name_spec _ Hplain) as (Hsep & _ & _ & _).
  destruct (convert_font_written env _ _ _ _ _ Hp)
    as (d0 & t0 & f0 & out & lo & _ & _ & _ & Hlo & Hdo & ->).
  destruct (locate_scratch_entry env (fs v2) _ _ Hsep Hc Hs Hlo Hdo)
    as [-> _].
  rewrite lookup_insert_ne by (intros <-; apply Hl, under_snoc).
  by apply H2.
Qed.

(** A run stopped before a stage is stopped for good. *)
Lemma main_stopped st w r w1 :
  before env args st w = (r, w1) → r ≠ Val tt →
  main env args w = (r, w1).
Proof.
  rewrite main_staged.
  destruct st; unfold before, after; rewrite !bind_run.
  - destruct (setup env w) as [[[]|?|?] w0]; [|by intros [= <- <-]..].
    by intros [= <- <-].
  - destruct (setup env w) as [[[]|?|?] w0]; [|by intros [= <- <-]..].
    cbv beta iota. rewrite ?bind_run.
    destruct (guard env args Acquire w0) as [[[]|?|?] w0'];
      by intros [= <- <-].
  - destruct (setup env w) as [[[]|?|?] w0]; [|by intros [= <- <-]..].
    cbv beta iota. rewrite ?bind_run.
    destruct (guard env args Acquire w0) as [[[]|?|?] w0'];
      [|by intros [= <- <-]..].
    cbv beta iota. rewrite ?bind_run.
    destruct (guard env args ValidateIn w0') as [[[]|?|?] w0''];
      by intros [= <- <-].
  - destruct (setup env w) as [[[]|?|?] w0]; [|by intros [= <- <-]..].
    cbv beta iota. rewrite ?bind_run.
    destruct (guard env args Acquire w0) as [[[]|?|?] w0'];
      [|by intros [= <- <-]..].
    cbv beta iota. rewrite ?bind_run.
    destruct (guard env args ValidateIn w0') as [[[]|?|?] w0''];
      [|by intros [= <- <-]..].
    cbv beta iota. rewrite ?bind_run.
    destruct (guard env args Transcode w0'') as [[[]|?|?] w0'''];
      by intros [= <- <-].
Qed.

(** When [publish] does not return, it has printed nothing. *)
Lemma publish_stopped w r w' :
  publish env args w = (r, w') → r ≠ Val tt →
  grows_by (λ e, ¬ printed e) w w'.
Proof.
  unfold publish, fs_get, fs_put, log_info, print, emit, percent, lift, raise.
  unfold mbind, M_bind, mret, M_ret. cbn [fs logged stored].
  assert (Hlog : ∀ msgs v,
    grows_by (λ e, ¬ printed e) w (stored (logged w (LogInfo <$> msgs)) v)).
  { intros msgs v. apply grows_by_stored, grows_by_logged.
    apply Forall_fmap, Forall_true. by intros msg [line ?]. }
  destruct (Fs.getsize _ _ (input_path args)) as [|isz].
  { intros [= <- <-] _. apply grows_by_refl. }
  destruct (Fs.getsize _ _ (output_path args)) as [|osz].
  { intros [= <- <-] _. apply grows_by_refl. }
  destruct (_ =? _)%Z.
  { intros [= <- <-] _.
    apply (grows_by_trans _ _ (logged w [LogInfo Done])
             ); [by apply (Hlog [Done] (fs w))|].
    apply (grows_by_trans _ _
             (logged (logged w [LogInfo Done])
                [LogInfo (InputFile (input_filename args) isz)]));
      apply grows_by_logged, Forall_singleton; by intros [line ?]. }
  cbn [fs logged stored].
  destruct (Fs.rename _ _ _ _) as [|fs1].
  { intros [= <- <-] _.
    repeat (eapply grows_by_trans;
            [|apply grows_by_logged, Forall_singleton; by intros [line ?]]).
    apply grows_by_refl. }
  cbn [fs logged stored].
  destruct (Fs.rmtree _ _ _) as [|fs2].
  { intros [= <- <-] _. apply grows_by_stored.
    repeat (eapply grows_by_trans;
            [|apply grows_by_logged, Forall_singleton; by intros [line ?]]).
    apply grows_by_refl. }
  by intros [= <- <-].
Qed.

End WithArgs.

End Runs.

(** * The claims *)

Import StrFacts PathFacts FsFacts Run Stages Emits Ends Convert Published Runs.

(** C4. [validate_font] returns a boolean for every path, raises nothing
    past its boundary and changes no file; the boolean is true exactly
    when the file opens as a font container and exposes at least one glyph
    identifier. *)
Theorem validate_font_boolean env file_path w :
  ∃ b,
    validate_font env file_path w =
      (Val b, logged w [Call m_validate_font [file_path]]) ∧
    (b = true ↔ opens_with_glyphs env (fs w) file_path).
Proof. apply validate_font_run. Qed.

(** C10. [detect_font_format] returns the extension of the path,
    lowercased, without its leading dot, and the empty string for a path
    that has no extension.  The result is computed from the path alone: no
    file is read, and the only trace of the call is the call itself.  With
    the lowercasing of ASCII text the result is the extension in which the
    letters [A] to [Z] are replaced by [a] to [z].  No run of [main] calls
    the method. *)
Theorem detect_font_format_extension :
  (∀ str_lower file_path ext w,
     extension_of file_path ext →
     keeps_the_dot str_lower ext →
     detect_font_format str_lower file_path w =
       (Val (str_lower ext),
        logged w [Call m_detect_font_format [file_path]])) ∧
  (∀ str_lower file_path w,
     (∀ ext, ¬ extension_of file_path ext) →
     str_lower "" = "" →
     detect_font_format str_lower file_path w =
       (Val "", logged w [Call m_detect_font_format [file_path]])) ∧
  (∀ file_path ext w,
     extension_of file_path ext →
     detect_font_format Str.lower file_path w =
       (Val (lowercase ext),
        logged w [Call m_detect_font_format [file_path]])) ∧
  (∀ env args w, never_calls m_detect_font_format w (main env args w).2).
Proof.
  assert (Hext : ∀ str_lower p e w,
    extension_of p e → keeps_the_dot str_lower e →
    detect_font_format str_lower p w =
      (Val (str_lower e), logged w [Call m_detect_font_format [p]])).
  { intros f p e w He [Hdot Hfirst].
    apply extension_of_splitext in He.
    unfold detect_font_format, emit.
    rewrite bind_run. cbv beta iota. unfold mret, M_ret. do 2 f_equal.
    rewrite He. change (String "." e) with ("." +:+ e). rewrite Hdot.
    change ("." +:+ f e) with (String "." (f e)).
    cbn [Str.lstrip]. rewrite Ascii.eqb_refl. by apply lstrip_absent. }
  split; [exact Hext|]. split; [|split; [|intros; apply main_never_detects]].
  - intros f p w Hno Hempty.
    unfold detect_font_format, emit.
    rewrite bind_run. cbv beta iota. unfold mret, M_ret. do 2 f_equal.
    destruct (splitext_ext p) as [->|(e & He & _)]; [by rewrite Hempty|].
    apply extension_of_splitext in He. by destruct (Hno e).
  - intros p e w He. rewrite <- lower_lowercase.
    apply Hext; [done|].
    destruct He as (_ & _ & _ & _ & _ & _ & He & _).
    by apply lower_keeps_the_dot.
Qed.

Lemma detect_font_format_extension_witness :
  detect_font_format Str.lower "fonts/Noto.Sans.TTF" Toy.start =
    (Val "ttf",
     logged Toy.start [Call m_detect_font_format ["fonts/Noto.Sans.TTF"]]) ∧
  detect_font_format Str.lower "fonts.d/.hidden" Toy.start =
    (Val "",
     logged Toy.start [Call m_detect_font_format ["fonts.d/.hidden"]]).
Proof.
  split.
  - refine (proj1 detect_font_format_extension Str.lower
              "fonts/Noto.Sans.TTF" "TTF" Toy.start _ _).
    + exists "fonts/", "Noto.Sans". repeat split; try reflexivity.
      * by right.
      * exists "N"%char. by split.
    + by split.
  - refine (proj1 (proj2 detect_font_format_extension) Str.lower
              "fonts.d/.hidden" Toy.start _ _).
    + intros ext H. apply extension_of_splitext in H. discriminate H.
    + reflexivity.
Defined.

(** C9. When the response carries a client or server error status,
    [download_font] returns [False] and leaves the file system as it was:
    nothing is created at the output path.  When the status is fine and
    the transfer breaks after some chunks, it returns [False] too, and the
    chunks received are left in the file at the output path. *)
Theorem download_font_http_error env url output_path w response :
  http_get env url = inr response →
  ((400 ≤ status_code response < 600)%Z →
   ∃ w', download_font env url output_path w = (Val false, w') ∧
         fs w' = fs w) ∧
  (∀ fs1 f,
     ¬ (400 ≤ status_code response < 600)%Z →
     broken response = true →
     Fs.open_wb (fs w) (cwd env) output_path = inr (fs1, f) →
     ∃ w', download_font env url output_path w = (Val false, w') ∧
           fs w' !! f = Some (Fs.File (concat (chunks response)))).
Proof.
  intros Hget. rewrite download_font_run, Hget. cbv zeta. split.
  - intros Hst.
    assert (error_status response = true) as ->.
    { unfold error_status. apply andb_true_iff. split; lia. }
    eauto.
  - intros fs1 f Hst Hbr Hopen.
    assert (error_status response = false) as ->.
    { unfold error_status. apply andb_false_iff.
      destruct (Z.leb_spec 400 (status_code response)); [|by left].
      right. apply Z.ltb_ge. lia. }
    rewrite Hopen, Hbr. eexists. split; [reflexivity|].
    simpl. apply lookup_insert_eq.
Qed.

Lemma download_font_http_error_witness :
  (∃ w', download_font Toy.env "http://fonts.test/missing.ttf"
           "temp_fonts/missing.ttf" (Toy.reached Toy.env Toy.missing Acquire)
         = (Val false, w') ∧
         fs w' = fs (Toy.reached Toy.env Toy.missing Acquire)) ∧
  (∃ w', download_font Toy.env "http://fonts.test/cut.ttf"
           "temp_fonts/cut.ttf" (Toy.reached Toy.env Toy.cut Acquire)
         = (Val false, w') ∧
         fs w' !! (Toy.home ++ ["temp_fonts"; "cut.ttf"])
         = Some (Fs.File (Toy.bytes "OTTOa"))).
Proof.
  split.
  - refine (proj1 (download_font_http_error Toy.env
      "http://fonts.test/missing.ttf" "temp_fonts/missing.ttf"
      (Toy.reached Toy.env Toy.missing Acquire)
      {| status_code := 404; chunks := [Toy.bytes "Not Found"];
         broken := false |} _) _).
    + reflexivity.
    + cbn [status_code]. lia.
  - refine (proj2 (download_font_http_error Toy.env
      "http://fonts.test/cut.ttf" "temp_fonts/cut.ttf"
      (Toy.reached Toy.env Toy.cut Acquire)
      {| status_code := 200; chunks := [Toy.bytes "OTTOa"];
         broken := true |} _)
      (<[Toy.home ++ ["temp_fonts"; "cut.ttf"] := Fs.File []]>
         (fs (Toy.reached Toy.env Toy.cut Acquire)))
      (Toy.home ++ ["temp_fonts"; "cut.ttf"]) _ _ _).
    + reflexivity.
    + cbn [status_code]. lia.
    + reflexivity.
    + reflexivity.
Defined.

(** C8. When the run has downloaded the file and [validate_font] rejects
    it, [main] logs the error and exits with status 1, and the run has
    called [convert_font] at no point. *)
Theorem invalid_download_never_converted env args w w1 w2 :
  before env args ValidateIn w = (Val tt, w1) →
  validate_font env (input_path args) w1 = (Val false, w2) →
  main env args w = (SysExit 1, logged w2 [LogError InputInvalid]) ∧
  exit_status (main env args w) = 1%Z ∧
  never_calls m_convert_font w (main env args w).2.
Proof.
  intros Hb Hv.
  assert (Hm : main env args w = (SysExit 1, logged w2 [LogError InputInvalid])).
  { by rewrite (main_stage_failed env args ValidateIn w w1 w2). }
  rewrite Hm. split; [reflexivity|]. split; [reflexivity|].
  cbn [snd].
  destruct (before_validation_never_converts env args) as [Hq1 Hq2].
  apply grows_by_trans with w1.
  { specialize (Hq1 w). by rewrite Hb in Hq1. }
  apply grows_by_trans with w2.
  { specialize (Hq2 w1). simpl in Hq2. by rewrite Hv in Hq2. }
  apply grows_by_logged, Forall_singleton. by intros [a ?].
Qed.

Lemma invalid_download_never_converted_witness :
  main Toy.env Toy.not_a_font Toy.start
  = (SysExit 1,
     logged (Toy.left Toy.env Toy.not_a_font ValidateIn)
       [LogError InputInvalid]) ∧
  exit_status (main Toy.env Toy.not_a_font Toy.start) = 1%Z ∧
  never_calls m_convert_font Toy.start
    (main Toy.env Toy.not_a_font Toy.start).2.
Proof.
  apply (invalid_download_never_converted Toy.env Toy.not_a_font Toy.start
           (Toy.reached Toy.env Toy.not_a_font ValidateIn)).
  - reflexivity.
  - reflexivity.
Defined.






(** C1, as the code has it.  When the run reaches the validation of the
    output and the converted file is rejected, [main] logs the error and
    exits with status 1 at once, and the scratch directory is still in the
    file system.  It is after a successful run that nothing is left of the
    scratch directory. *)
Theorem scratch_directory_fate env args w :
  (∀ w4 w5,
     before env args ValidateOut w = (Val tt, w4) →
     validate_font env (output_path args) w4 = (Val false, w5) →
     main env args w = (SysExit 1, logged w5 [LogError OutputInvalid]) ∧
     fs (main env args w).2 !! scratch env = Some Fs.Dir) ∧
  (∀ w',
     main env args w = (Val tt, w') →
     ∀ l, Fs.under (scratch env) l → fs w' !! l = None).
Proof.
  split.
  - intros w4 w5 Hb Hv.
    assert (Hm : main env args w
                 = (SysExit 1, logged w5 [LogError OutputInvalid])).
    { by rewrite (main_stage_failed env args ValidateOut w w4 w5). }
    rewrite Hm. split; [done|]. cbn [snd logged fs].
    apply (perform_keeps_dirs env args ValidateOut w4 false w5 Hv).
    by apply (before_dirs env args ValidateOut w w4).
  - intros w' Hm l Hl.
    destruct (main_cases env args w)
      as [(e & v & Hm')|[(st & w1 & w2 & v & _ & _ & Hm')
                        |(w4 & w5 & v & _ & _ & Hpub & Hm')]];
      [congruence..|].
    assert (v = w') as -> by congruence.
    apply publish_run in Hpub
      as (isz & osz & fs1 & fs2 & _ & _ & _ & _ & Hrm & ->).
    apply rmtree_temp in Hrm as (-> & _ & _). cbn [stored fs].
    rewrite remove_tree_lookup. by destruct (decide (Fs.under (scratch env) l)).
Qed.

Lemma scratch_directory_fate_witness :
  (main Toy.lossy_env Toy.named_foo Toy.start
   = (SysExit 1,
      logged (Toy.left Toy.lossy_env Toy.named_foo ValidateOut)
        [LogError OutputInvalid]) ∧
   fs (main Toy.lossy_env Toy.named_foo Toy.start).2
     !! scratch Toy.lossy_env = Some Fs.Dir) ∧
  (∀ l, Fs.under (scratch Toy.env) l →
        fs (main Toy.env Toy.named_foo Toy.start).2 !! l = None).
Proof.
  split.
  - refine (proj1 (scratch_directory_fate Toy.lossy_env Toy.named_foo
                     Toy.start)
              (Toy.reached Toy.lossy_env Toy.named_foo ValidateOut)
              (Toy.left Toy.lossy_env Toy.named_foo ValidateOut) _ _).
    + reflexivity.
    + reflexivity.
  - refine (proj2 (scratch_directory_fate Toy.env Toy.named_foo Toy.start)
              (main Toy.env Toy.named_foo Toy.start).2 _).
    reflexivity.
Defined.

(** C1, as the claim states it, fails: with a codec whose output its own
    reader rejects, the run reaches the validation of the output, fails
    there and exits with status 1, and the scratch directory has not been
    removed. *)
Lemma scratch_left_after_invalid_output :
  before Toy.lossy_env Toy.named_foo ValidateOut Toy.start
  = (Val tt, Toy.reached Toy.lossy_env Toy.named_foo ValidateOut) ∧
  (validate_font Toy.lossy_env (output_path Toy.named_foo)
     (Toy.reached Toy.lossy_env Toy.named_foo ValidateOut)).1 = Val false ∧
  exit_status (main Toy.lossy_env Toy.named_foo Toy.start) = 1%Z ∧
  ¬ (∀ l, Fs.under (scratch Toy.lossy_env) l →
          fs (main Toy.lossy_env Toy.named_foo Toy.start).2 !! l = None).
Proof.
  split; [reflexivity|]. split; [reflexivity|]. split; [reflexivity|].
  intros H. specialize (H (scratch Toy.lossy_env) (under_refl _)).
  revert H. vm_compute. discriminate.
Qed.

(** C2, at the failing input: a WOFF font converted with target [ttf].
    The run succeeds, and the file it publishes as [b.ttf] is a WOFF
    container: [convert_font] has left the flavor of the input on the font
    object. *)
Theorem woff_input_converted_to_ttf_stays_woff :
  (main Toy.env Toy.woff_to_ttf Toy.start).1 = Val tt ∧
  Fs.read (fs (main Toy.env Toy.woff_to_ttf Toy.start).2) Toy.home "b.ttf"
    = inr (Toy.bytes "wOFFxyz") ∧
  sfnt_read Toy.codec (Toy.bytes "wOFFxyz")
    = inr (Toy.bytes "xyz", Some "woff") ∧
  flavor Toy.env
    (retarget Toy.env
       {| tables := Toy.bytes "xyz" : Tables (lib Toy.env);
          flavor := Some "woff" |} "ttf")
    = Some "woff".
Proof. repeat split; reflexivity. Qed.

(** C3, at the failing input: a URL whose query string contains a slash.
    The name [main] chooses is what follows the last slash of the whole
    URL, not the last path segment, and the download is stored under that
    name. *)
Theorem query_with_slash_changes_the_name :
  input_filename Toy.query_with_slash = "2" ∧
  last_segment_without_query (url Toy.query_with_slash) = "b.woff" ∧
  fs (Toy.left Toy.env Toy.query_with_slash Acquire)
    !! (Toy.home ++ ["temp_fonts"; "2"])
    = Some (Fs.File (Toy.bytes "wOFFxyz")) ∧
  fs (Toy.left Toy.env Toy.query_with_slash Acquire)
    !! (Toy.home ++ ["temp_fonts"; "b.woff"])
    = None.
Proof. repeat split; reflexivity. Qed.

(** C7, at the failing input: a font converted to its own format, so that
    the converted file takes the place of the downloaded one.  The
    download is 8 bytes long, the run succeeds, and it reports 6 bytes as
    the size of the input, the size of the converted file. *)
Theorem same_format_reports_the_converted_size :
  Fs.getsize (fs (Toy.left Toy.env Toy.same_format Acquire)) Toy.home
    (input_path Toy.same_format) = inr 8%Z ∧
  (main Toy.env Toy.same_format Toy.start).1 = Val tt ∧
  trace (main Toy.env Toy.same_format Toy.start).2 !! 9%nat
    = Some (LogInfo (InputFile "a.ttf" 6)) ∧
  trace (main Toy.env Toy.same_format Toy.start).2 !! 13%nat
    = Some (Stdout "::set-output name=input_size::6").
Proof. repeat split; reflexivity. Qed.


(** C6, as the code has it.  Take a successful run whose [--output-name],
    if given, contains no slash.  The name of the output is the given name
    followed by a dot and the format when the given name is not empty, and
    the base name of the downloaded file followed by a dot and the format
    otherwise.  After the run the working directory holds under that name
    one file, which opens as a font with glyphs; nothing is left of the
    scratch directory; and every other location of the file system is as
    it was before the run. *)
Theorem published_file env args w w' :
  main env args w = (Val tt, w') →
  (∀ s, output_name args = Some s → Str.contains "/" s = false) →
  (∀ s, output_name args = Some s → s ≠ "" →
        output_filename args = s +:+ "." +:+ tag (output_format args)) ∧
  (output_name args = None ∨ output_name args = Some "" →
   output_filename args =
     (Path.splitext (input_filename args)).1 +:+ "." +:+
     tag (output_format args)) ∧
  (∃ data t f order,
     fs w' !! (cwd env ++ [output_filename args]) = Some (Fs.File data) ∧
     sfnt_read (lib env) data = inr (t, f) ∧
     glyph_order (lib env) t = inr order ∧
     order ≠ []) ∧
  (∀ l, Fs.under (scratch env) l → fs w' !! l = None) ∧
  (∀ l, l ≠ cwd env ++ [output_filename args] →
        ¬ Fs.under (scratch env) l →
        fs w' !! l = fs w !! l).
Proof.
  intros Hm Hname.
  split.
  { intros s Hs Hne. unfold output_filename. rewrite Hs. simpl.
    by destruct (String.eqb_spec s ""). }
  split.
  { unfold output_filename. by intros [->| ->]. }
  destruct (run_before_publish env args w w' Hm Hname)
    as (w5 & out & t & f & order & Hpub & Hc5 & Hs5 & Hout & Hsr & Hgo & Hne
        & Hfs).
  destruct (output_filename_plain args Hname) as [Hplain Hnot].
  (* it is renamed, and the scratch directory removed *)
  apply publish_run in Hpub
    as (isz & osz & fs1 & fs2 & _ & _ & _ & Hren & Hrm & ->).
  apply rmtree_temp in Hrm as (-> & _ & _).
  apply (rename_out env (fs w5) _ out) in Hren; [|done..].
  subst fs1. cbn [stored fs].
  assert (Hside : ¬ Fs.under (scratch env) (cwd env ++ [output_filename args])).
  { apply not_under_sibling. congruence. }
  split.
  { exists out, t, f, order. repeat split; try done.
    rewrite remove_tree_lookup.
    destruct (decide (Fs.under _ _)); [done|]. apply lookup_insert_eq. }
  split.
  { intros l Hl. rewrite remove_tree_lookup.
    by destruct (decide (Fs.under (scratch env) l)). }
  intros l Hl Hnu. rewrite remove_tree_lookup.
  destruct (decide (Fs.under (scratch env) l)); [done|].
  rewrite lookup_insert_ne by done.
  rewrite lookup_delete_ne by (intros <-; apply Hnu, under_snoc).
  by apply Hfs.
Qed.

Lemma published_file_witness :
  output_filename Toy.named_foo = "foo.woff2" ∧
  (∃ data t f order,
     fs (main Toy.env Toy.named_foo Toy.start).2 !! (Toy.home ++ ["foo.woff2"])
       = Some (Fs.File data) ∧
     sfnt_read Toy.codec data = inr (t, f) ∧
     glyph_order Toy.codec t = inr order ∧
     order ≠ []) ∧
  (∀ l, Fs.under (scratch Toy.env) l →
        fs (main Toy.env Toy.named_foo Toy.start).2 !! l = None) ∧
  (∀ l, l ≠ Toy.home ++ ["foo.woff2"] →
        ¬ Fs.under (scratch Toy.env) l →
        fs (main Toy.env Toy.named_foo Toy.start).2 !! l = fs Toy.start !! l).
Proof.
  pose proof (published_file Toy.env Toy.named_foo Toy.start
                (main Toy.env Toy.named_foo Toy.start).2) as H.
  destruct H as (Hn & _ & Hf & Hs & Ho).
  - reflexivity.
  - intros s [= <-]. reflexivity.
  - split; [|by repeat split].
    apply (Hn "foo"); [reflexivity|discriminate].
Defined.

(** C6, as the claim states it, fails twice.  With [--output-name ../foo]
    the run succeeds and leaves its file in the parent of the working
    directory, and no file in the working directory.  With an empty
    [--output-name] the run succeeds and names the file after the
    download, [b.woff2], not [.woff2]. *)
Lemma published_elsewhere_or_under_another_name :
  ((main Toy.env Toy.named_outside Toy.start).1 = Val tt ∧
   fs (main Toy.env Toy.named_outside Toy.start).2
   = {[ ["home"] := Fs.Dir;
        ["home"; "ci"] := Fs.Dir;
        ["home"; "foo.woff2"] := Fs.File (Toy.bytes "wOF2xyz") ]}) ∧
  ((main Toy.env Toy.named_empty Toy.start).1 = Val tt ∧
   output_name Toy.named_empty = Some "" ∧
   fs (main Toy.env Toy.named_empty Toy.start).2
   = {[ ["home"] := Fs.Dir;
        ["home"; "ci"] := Fs.Dir;
        ["home"; "ci"; "b.woff2"] := Fs.File (Toy.bytes "wOF2xyz") ]}).
Proof. repeat split; reflexivity. Qed.

(** * Further properties of the code *)

(** X1. When the request succeeds, the status is not an error, the
    transfer is complete and the output path can be opened,
    [download_font] returns [True] and the file at the output path holds
    the chunks of the body, in order, and nothing else; no other location
    changes. *)
Theorem download_font_stores_the_body env url output_path w response fs1 f :
  http_get env url = inr response →
  error_status response = false →
  broken response = false →
  Fs.open_wb (fs w) (cwd env) output_path = inr (fs1, f) →
  ∃ w',
    download_font env url output_path w = (Val true, w') ∧
    fs w' = <[f := Fs.File (concat (chunks response))]> (fs w) ∧
    trace w' = trace w ++
      [Call m_download_font [url; output_path];
       LogInfo (Downloading url);
       LogInfo (Downloaded output_path)].
Proof.
  intros Hget Hst Hbr Hopen.
  rewrite download_font_run, Hget. cbv zeta. rewrite Hst, Hopen, Hbr.
  eexists. split; [reflexivity|]. split; [reflexivity|].
  unfold stored, logged. cbn [trace]. by rewrite <- app_assoc.
Qed.

Lemma download_font_stores_the_body_witness :
  ∃ w',
    download_font Toy.env "http://fonts.test/a.ttf" "temp_fonts/a.ttf"
      (Toy.reached Toy.env Toy.same_format Acquire) = (Val true, w') ∧
    fs w' = <[Toy.home ++ ["temp_fonts"; "a.ttf"] :=
                Fs.File (concat [Toy.bytes "OTTOab"; [x00; x00]])]>
              (fs (Toy.reached Toy.env Toy.same_format Acquire)) ∧
    trace w' = trace (Toy.reached Toy.env Toy.same_format Acquire) ++
      [Call m_download_font ["http://fonts.test/a.ttf"; "temp_fonts/a.ttf"];
       LogInfo (Downloading "http://fonts.test/a.ttf");
       LogInfo (Downloaded "temp_fonts/a.ttf")].
Proof.
  refine (download_font_stores_the_body Toy.env _ _ _
    {| status_code := 200;
       chunks := [Toy.bytes "OTTOab"; [x00; x00]];
       broken := false |}
    (<[Toy.home ++ ["temp_fonts"; "a.ttf"] := Fs.File []]>
       (fs (Toy.reached Toy.env Toy.same_format Acquire)))
    (Toy.home ++ ["temp_fonts"; "a.ttf"]) _ _ _ _); reflexivity.
Defined.


(** X3. A successful [convert_font] has read the input as a font and
    written at the output path the same tables, serialised with flavor
    [woff2] or [woff] when that is the target format, and with the flavor
    found in the input when the target is [ttf] or [otf]. *)
Theorem convert_font_output env input_path output_path fmt w w' :
  convert_font env input_path output_path (tag fmt) w = (Val true, w') →
  ∃ data t f out l,
    Fs.read (fs w) (cwd env) input_path = inr data ∧
    sfnt_read (lib env) data = inr (t, f) ∧
    sfnt_write (lib env) t
      (match fmt with
       | woff | woff2 => Some (tag fmt)
       | ttf | otf => f
       end) = inr out ∧
    Fs.locate (fs w) (cwd env) output_path = inr l ∧
    fs w' = <[l := Fs.File out]> (fs w).
Proof.
  intros H. apply convert_font_written in H
    as (data & t & f & out & l & Hr & Hs & Hw & Hl & _ & Hfs).
  exists data, t, f, out, l. repeat split; try done.
  by rewrite retarget_flavor in Hw.
Qed.

Lemma convert_font_output_witness :
  ∃ data t f out l,
    Fs.read (fs (Toy.reached Toy.env Toy.named_foo Transcode)) Toy.home
      "temp_fonts/b.woff" = inr data ∧
    sfnt_read Toy.codec data = inr (t, f) ∧
    sfnt_write Toy.codec t (Some "woff2") = inr out ∧
    Fs.locate (fs (Toy.reached Toy.env Toy.named_foo Transcode)) Toy.home
      "temp_fonts/foo.woff2" = inr l ∧
    fs (Toy.left Toy.env Toy.named_foo Transcode)
    = <[l := Fs.File out]> (fs (Toy.reached Toy.env Toy.named_foo Transcode)).
Proof.
  refine (convert_font_output Toy.env "temp_fonts/b.woff"
            "temp_fonts/foo.woff2" woff2
            (Toy.reached Toy.env Toy.named_foo Transcode)
            (Toy.left Toy.env Toy.named_foo Transcode) _).
  reflexivity.
Defined.

(** X4. Whatever the URL and whatever the server answers, the download
    changes no location outside the scratch directory; and when it
    succeeds, the name derived from the URL is a plain name and the file
    is the entry of the scratch directory under that name. *)
Theorem input_path_in_scratch env args w w1 b w2 :
  before env args Acquire w = (Val tt, w1) →
  download_font env (url args) (input_path args) w1 = (Val b, w2) →
  (∀ l, ¬ Fs.under (scratch env) l → fs w2 !! l = fs w1 !! l) ∧
  (b = true →
   Fs.plain_name (input_filename args) = true ∧
   ∃ data,
     fs w2 !! (scratch env ++ [input_filename args])
     = Some (Fs.File data)).
Proof.
  intros Hb Hd.
  destruct (before_dirs env args _ _ _ Hb) as [Hc Hs].
  split; [by apply (download_outside env args w1 b w2)|].
  intros ->.
  destruct (download_written env args w1 w2 Hd)
    as (l & data & Hl & Hnd & Hfs).
  destruct (locate_scratch_entry env (fs w1) _ _
              (input_filename_no_sep args) Hc Hs Hl Hnd) as [-> Hplain].
  split; [done|]. exists data. rewrite Hfs. apply lookup_insert_eq.
Qed.

Lemma input_path_in_scratch_witness :
  (∀ l, ¬ Fs.under (scratch Toy.env) l →
        fs (Toy.left Toy.env Toy.named_foo Acquire) !! l
        = fs (Toy.reached Toy.env Toy.named_foo Acquire) !! l) ∧
  (true = true →
   Fs.plain_name (input_filename Toy.named_foo) = true ∧
   ∃ data,
     fs (Toy.left Toy.env Toy.named_foo Acquire)
       !! (scratch Toy.env ++ [input_filename Toy.named_foo])
     = Some (Fs.File data)).
Proof.
  apply (input_path_in_scratch Toy.env Toy.named_foo Toy.start
           (Toy.reached Toy.env Toy.named_foo Acquire) true
           (Toy.left Toy.env Toy.named_foo Acquire)); reflexivity.
Defined.

(** X5. On the string of the URL: when it holds no question mark, the
    name chosen for the download is what follows its last slash; when no
    slash follows its first question mark, the name is what follows the
    last slash of the part before that question mark. *)
Theorem input_filename_without_slash_in_query args :
  (Str.contains "?" (url args) = false →
   input_filename args = Path.basename (url args)) ∧
  (∀ a q,
     url args = a +:+ "?" +:+ q →
     Str.contains "?" a = false →
     Str.contains "/" q = false →
     input_filename args = Path.basename a).
Proof.
  unfold input_filename. split.
  - intros Hq.
    rewrite split_absent by (by apply contains_basename). done.
  - intros a q -> Ha Hq.
    change (a +:+ "?" +:+ q) with (a +:+ String "?" q).
    rewrite basename_app by done.
    rewrite split_app by (by apply contains_basename). done.
Qed.

Lemma input_filename_without_slash_in_query_witness :
  input_filename
    {| url := "http://fonts.test/b.woff?v=12";
       output_format := woff2;
       output_name := None |} = "b.woff".
Proof.
  refine (proj2 (input_filename_without_slash_in_query
    {| url := "http://fonts.test/b.woff?v=12";
       output_format := woff2;
       output_name := None |})
    "http://fonts.test/b.woff" "v=12" _ _ _); reflexivity.
Defined.

(** X6. A successful run adds to the trace, in this order: the download
    with its two log lines, the validation of the input, the conversion
    with its two log lines, the validation of the output, the four log
    lines of the report, whose sizes are those read from the scratch
    directory and whose input size is not zero, and the three lines on
    standard output. *)
Theorem successful_run_trace env args w w' :
  main env args w = (Val tt, w') →
  ∃ input_size output_size,
    input_size ≠ 0%Z ∧
    trace w' = trace w ++
      [Call m_download_font [url args; input_path args];
       LogInfo (Downloading (url args));
       LogInfo (Downloaded (input_path args));
       Call m_validate_font [input_path args];
       Call m_convert_font
         [input_path args; output_path args; tag (output_format args)];
       LogInfo (Converting (input_path args) (output_path args));
       LogInfo (Converted (output_path args));
       Call m_validate_font [output_path args];
       LogInfo Done;
       LogInfo (InputFile (input_filename args) input_size);
       LogInfo (OutputFile (output_filename args) output_size);
       LogInfo (Ratio ((1 - inject_Z output_size / inject_Z input_size)
                       * 100)%Q);
       Stdout ("::set-output name=converted_file::" +:+ output_filename args);
       Stdout ("::set-output name=input_size::" +:+ pretty input_size);
       Stdout ("::set-output name=output_size::" +:+ pretty output_size)].
Proof.
  intros Hm.
  destruct (main_cases env args w)
    as [(e & v & Hm')|[(st & v1 & v2 & v & _ & _ & Hm')
                      |(w4 & w5 & v & Hb4 & Hp4 & Hpub & Hm')]];
    [congruence..|].
  assert (v = w') as -> by congruence.
  apply (before_next env args Transcode) in Hb4 as (w3 & Hb3 & Hp3);
    [|by repeat constructor].
  apply (before_next env args ValidateIn) in Hb3 as (w2 & Hb2 & Hp2);
    [|by repeat constructor].
  apply (before_next env args Acquire) in Hb2 as (w1 & Hb1 & Hp1);
    [|by repeat constructor].
  apply setup_trace in Hb1. apply download_true_trace in Hp1.
  apply validate_trace in Hp2. apply convert_true_trace in Hp3.
  apply validate_trace in Hp4.
  apply publish_run in Hpub
    as (isz & osz & fs1 & fs2 & _ & _ & Hnz & _ & _ & ->).
  exists isz, osz. split; [done|]. cbn [stored logged trace].
  rewrite Hp4, Hp3, Hp2, Hp1, Hb1. by rewrite <- !app_assoc.
Qed.

Lemma successful_run_trace_witness :
  ∃ input_size output_size,
    input_size ≠ 0%Z ∧
    trace (main Toy.env Toy.named_foo Toy.start).2 = trace Toy.start ++
      [Call m_download_font
         [url Toy.named_foo; input_path Toy.named_foo];
       LogInfo (Downloading (url Toy.named_foo));
       LogInfo (Downloaded (input_path Toy.named_foo));
       Call m_validate_font [input_path Toy.named_foo];
       Call m_convert_font
         [input_path Toy.named_foo; output_path Toy.named_foo;
          tag (output_format Toy.named_foo)];
       LogInfo (Converting (input_path Toy.named_foo)
                  (output_path Toy.named_foo));
       LogInfo (Converted (output_path Toy.named_foo));
       Call m_validate_font [output_path Toy.named_foo];
       LogInfo Done;
       LogInfo (InputFile (input_filename Toy.named_foo) input_size);
       LogInfo (OutputFile (output_filename Toy.named_foo) output_size);
       LogInfo (Ratio ((1 - inject_Z output_size / inject_Z input_size)
                       * 100)%Q);
       Stdout ("::set-output name=converted_file::"
               +:+ output_filename Toy.named_foo);
       Stdout ("::set-output name=input_size::" +:+ pretty input_size);
       Stdout ("::set-output name=output_size::" +:+ pretty output_size)].
Proof.
  apply (successful_run_trace Toy.env Toy.named_foo Toy.start).
  reflexivity.
Defined.

(** X7. Unless the run succeeds, it writes nothing on standard output:
    the three lines come after every step that can fail. *)
Theorem nothing_printed_unless_success env args w :
  (main env args w).1 ≠ Val tt →
  grows_by (λ e, ¬ printed e) w (main env args w).2.
Proof.
  intros Hnot.
  assert (Hinfo : ∀ msg, ¬ printed (LogInfo msg)) by (by intros ? []).
  assert (Herr : ∀ msg, ¬ printed (LogError msg)) by (by intros ? []).
  assert (Hcall : ∀ m a, ¬ printed (Call m a)) by (by intros ? ? []).
  pose proof (emits_before env (λ e, ¬ printed e) Hinfo Herr args ValidateOut
                (λ st' a _, Hcall (method_of st') a) w) as Hpre.
  destruct (before env args ValidateOut w) as [r w4] eqn:Hb.
  assert (Hr : r = Val tt ∨ r ≠ Val tt).
  { destruct r as [[]| |]; [by left|by right..]. }
  destruct Hr as [->|Hr].
  2:{ by rewrite (main_stopped env args _ _ _ _ Hb Hr). }
  rewrite (main_at env args _ _ _ Hb), bind_run in Hnot |- *.
  pose proof (emits_guard env (λ e, ¬ printed e) Hinfo Herr args ValidateOut
                (λ a, Hcall (method_of ValidateOut) a) w4) as Hg.
  destruct (guard env args ValidateOut w4) as [[[]|e|c] w5];
    [|by eapply grows_by_trans..].
  cbn [snd] in *. apply grows_by_trans with w4; [done|].
  apply grows_by_trans with w5; [done|].
  simpl in Hnot |- *.
  destruct (publish env args w5) as [r' w'] eqn:Hpub.
  by apply (publish_stopped env args w5 r' w').
Qed.

Lemma nothing_printed_unless_success_witness :
  grows_by (λ e, ¬ printed e) Toy.start
    (main Toy.env Toy.not_a_font Toy.start).2.
Proof.
  apply (nothing_printed_unless_success Toy.env Toy.not_a_font Toy.start).
  vm_compute. discriminate.
Defined.

(** X8. When [temp_fonts] exists in the working directory as a regular
    file, [os.makedirs] raises [FileExistsError], which nothing catches:
    the run ends there, before any download, with the file system and the
    trace as they were. *)
Theorem scratch_path_taken_by_a_file env args w c :
  Fs.is_dir (fs w) (cwd env) = true →
  fs w !! scratch env = Some (Fs.File c) →
  main env args w = (Raise FileExistsError, w) ∧
  exit_status (main env args w) = 1%Z.
Proof.
  intros Hc Hf.
  assert (Hm : main env args w = (Raise FileExistsError, w)).
  { rewrite main_staged, bind_run. unfold setup, fs_put.
    by rewrite (makedirs_file (fs w) (cwd env) temp_dir c). }
  by rewrite Hm.
Qed.

Lemma scratch_path_taken_by_a_file_witness :
  main Toy.env Toy.named_foo Toy.blocked
  = (Raise FileExistsError, Toy.blocked) ∧
  exit_status (main Toy.env Toy.named_foo Toy.blocked) = 1%Z.
Proof.
  apply (scratch_path_taken_by_a_file Toy.env Toy.named_foo Toy.blocked
           (Toy.bytes "notes")); reflexivity.
Defined.

(** X9. When the name derived from the URL is empty, [.] or [..] (a URL
    that ends with a slash, for one), the path of the download names a
    directory: [download_font] fails whatever the server answers, nothing
    is written, and the run exits with status 1. *)
Theorem unusable_download_name env args w w1 :
  before env args Acquire w = (Val tt, w1) →
  Fs.plain_name (input_filename args) = false →
  ∃ w2,
    download_font env (url args) (input_path args) w1 = (Val false, w2) ∧
    fs w2 = fs w1 ∧
    exit_status (main env args w) = 1%Z.
Proof.
  intros Hb Hn.
  destruct (before_dirs env args _ _ _ Hb) as [Hc Hs].
  assert (Hd : ∃ w2,
    download_font env (url args) (input_path args) w1 = (Val false, w2) ∧
    fs w2 = fs w1).
  { rewrite download_font_run. cbv zeta.
    destruct (http_get env _); [eauto|].
    destruct (error_status _); [eauto|].
    unfold Fs.open_wb, input_path.
    rewrite join_temp_dir by apply input_filename_no_sep.
    rewrite (locate_below (fs w1) (cwd env) temp_dir)
      by (try done; apply input_filename_no_sep).
    unfold Fs.plain_name in Hn.
    rewrite input_filename_no_sep in Hn. simpl in Hn.
    destruct (Fs.special (input_filename args)).
    { fold (scratch env). unfold Fs.is_dir. rewrite Hs.
      unfold scratch. destruct (cwd env); eauto. }
    simpl in Hn. apply negb_false_iff in Hn. rewrite Hn.
    rewrite parent_snoc, Hc. eauto. }
  destruct Hd as (w2 & Hd & Hfs). exists w2. repeat split; try done.
  rewrite (main_stage_failed env args Acquire w w1 w2 Hb Hd). reflexivity.
Qed.

Lemma unusable_download_name_witness :
  ∃ w2,
    download_font Toy.env (url Toy.no_name) (input_path Toy.no_name)
      (Toy.reached Toy.env Toy.no_name Acquire) = (Val false, w2) ∧
    fs w2 = fs (Toy.reached Toy.env Toy.no_name Acquire) ∧
    exit_status (main Toy.env Toy.no_name Toy.start) = 1%Z.
Proof.
  apply (unusable_download_name Toy.env Toy.no_name Toy.start); reflexivity.
Defined.

(** X10. When the download fails, [main] exits with status 1 at once: it
    logs nothing more and calls neither [validate_font] nor
    [convert_font]. *)
Theorem failed_download_stops_the_run env args w w1 w2 :
  before env args Acquire w = (Val tt, w1) →
  download_font env (url args) (input_path args) w1 = (Val false, w2) →
  main env args w = (SysExit 1, w2) ∧
  never_calls m_validate_font w w2 ∧
  never_calls m_convert_font w w2.
Proof.
  intros Hb Hd.
  split; [by rewrite (main_stage_failed env args Acquire w w1 w2)|].
  assert (H : ∀ m, m ≠ m_download_font → never_calls m w w2).
  { intros m Hm.
    assert (Hinfo : ∀ msg, ¬ calls m (LogInfo msg)) by (by intros ? []).
    assert (Herr : ∀ msg, ¬ calls m (LogError msg)) by (by intros ? []).
    apply grows_by_trans with w1.
    - pose proof (emits_setup env (λ e, ¬ calls m e) w) as H.
      simpl in Hb. by rewrite Hb in H.
    - pose proof (emits_download_font env (λ e, ¬ calls m e) Hinfo Herr (url args)
                    (input_path args)) as H.
      specialize (H ltac:(by intros [a [= <-]]) w1). by rewrite Hd in H. }
  split; by apply H.
Qed.

Lemma failed_download_stops_the_run_witness :
  main Toy.env Toy.missing Toy.start
  = (SysExit 1, Toy.left Toy.env Toy.missing Acquire) ∧
  never_calls m_validate_font Toy.start (Toy.left Toy.env Toy.missing Acquire) ∧
  never_calls m_convert_font Toy.start (Toy.left Toy.env Toy.missing Acquire).
Proof.
  apply (failed_download_stops_the_run Toy.env Toy.missing Toy.start
           (Toy.reached Toy.env Toy.missing Acquire)); reflexivity.
Defined.

(** X11. A run that a stage fails leaves everything outside the scratch
    directory as it found it; when the stage is the validation of the
    output, this holds for an output name without slash. *)
Theorem failed_run_leaves_the_rest env args w st w1 w2 :
  before env args st w = (Val tt, w1) →
  perform env args st w1 = (Val false, w2) →
  (st = ValidateOut →
   ∀ s, output_name args = Some s → Str.contains "/" s = false) →
  ∀ l, ¬ Fs.under (scratch env) l → fs (main env args w).2 !! l = fs w !! l.
Proof.
  intros Hb Hp Hname l Hl.
  rewrite (main_stage_failed env args st w w1 w2 Hb Hp).
  destruct (on_failure_exits st w2) as (w' & -> & Hfs & _).
  cbn [snd]. rewrite Hfs.
  rewrite <- (before_outside env args st w w1 Hb Hname l Hl).
  destruct (before_dirs env args _ _ _ Hb) as [Hc Hs].
  destruct st.
  - by apply (download_outside env args w1 false w2).
  - by rewrite (validate_unchanged env _ _ _ _ Hp).
  - by rewrite (convert_false_unchanged env _ _ _ _ _ Hp).
  - by rewrite (validate_unchanged env _ _ _ _ Hp).
Qed.

Lemma failed_run_leaves_the_rest_witness :
  fs (main Toy.env Toy.cut Toy.start).2 !! Toy.home
  = fs Toy.start !! Toy.home.
Proof.
  apply (failed_run_leaves_the_rest Toy.env Toy.cut Toy.start Acquire
           (Toy.reached Toy.env Toy.cut Acquire)
           (Toy.left Toy.env Toy.cut Acquire)).
  - reflexivity.
  - reflexivity.
  - discriminate.
  - intros [k Hk]. discriminate.
Defined.

(** X12. After a successful run whose output name has no slash, the last
    line on standard output gives as output size the length in bytes of
    the file published in the working directory. *)
Theorem reported_output_size env args w w' :
  main env args w = (Val tt, w') →
  (∀ s, output_name args = Some s → Str.contains "/" s = false) →
  ∃ data,
    fs w' !! (cwd env ++ [output_filename args]) = Some (Fs.File data) ∧
    last (trace w')
    = Some (Stdout ("::set-output name=output_size::"
                    +:+ pretty (Z.of_nat (length data)))).
Proof.
  intros Hm Hname.
  destruct (run_before_publish env args w w' Hm Hname)
    as (w5 & out & t & f & order & Hpub & Hc5 & Hs5 & Hout & _ & _ & _ & _).
  destruct (output_filename_plain args Hname) as [Hplain Hnot].
  apply publish_run in Hpub
    as (isz & osz & fs1 & fs2 & _ & Hosz & _ & Hren & Hrm & ->).
  unfold output_path in Hosz.
  rewrite (getsize_scratch_entry env (fs w5) _ out) in Hosz by done.
  injection Hosz as <-.
  apply rmtree_temp in Hrm as (-> & _ & _).
  apply (rename_out env (fs w5) _ out) in Hren; [|done..].
  subst fs1. exists out. cbn [stored logged fs trace]. split.
  - rewrite remove_tree_lookup.
    destruct (decide (Fs.under _ _)) as [Hu|_]; [|apply lookup_insert_eq].
    by apply not_under_sibling in Hu; [|congruence].
  - by rewrite last_app.
Qed.

Lemma reported_output_size_witness :
  ∃ data,
    fs (main Toy.env Toy.named_foo Toy.start).2
      !! (cwd Toy.env ++ [output_filename Toy.named_foo])
    = Some (Fs.File data) ∧
    last (trace (main Toy.env Toy.named_foo Toy.start).2)
    = Some (Stdout ("::set-output name=output_size::"
                    +:+ pretty (Z.of_nat (length data)))).
Proof.
  apply (reported_output_size Toy.env Toy.named_foo Toy.start).
  - reflexivity.
  - intros s [= <-]. reflexivity.
Defined.

(** X13. When the output has the path of the input (a font converted to
    the format its name already shows, with no other output name), the
    converted file replaces the downloaded one before the sizes are read:
    a successful run reports one and the same number as input size and as
    output size. *)
Theorem same_path_same_sizes env args w w' :
  input_path args = output_path args →
  main env args w = (Val tt, w') →
  ∃ n, LogInfo (InputFile (input_filename args) n) ∈ trace w' ∧
       LogInfo (OutputFile (output_filename args) n) ∈ trace w' ∧
       Stdout ("::set-output name=input_size::" +:+ pretty n) ∈ trace w' ∧
       Stdout ("::set-output name=output_size::" +:+ pretty n) ∈ trace w'.
Proof.
  intros Hsame Hm.
  destruct (main_cases env args w)
    as [(e & v & Hm')|[(st & w1 & w2 & v & _ & _ & Hm')
                      |(w4 & w5 & v & _ & _ & Hpub & Hm')]];
    [congruence..|].
  assert (v = w') as -> by congruence.
  apply publish_run in Hpub
    as (isz & osz & fs1 & fs2 & Hi & Ho & _ & _ & _ & ->).
  rewrite Hsame in Hi. assert (isz = osz) as -> by congruence.
  exists osz. cbn [stored logged trace].
  repeat split; apply elem_of_app; right; set_solver.
Qed.

Lemma same_path_same_sizes_witness :
  ∃ n,
    LogInfo (InputFile (input_filename Toy.same_format) n)
      ∈ trace (main Toy.env Toy.same_format Toy.start).2 ∧
    LogInfo (OutputFile (output_filename Toy.same_format) n)
      ∈ trace (main Toy.env Toy.same_format Toy.start).2 ∧
    Stdout ("::set-output name=input_size::" +:+ pretty n)
      ∈ trace (main Toy.env Toy.same_format Toy.start).2 ∧
    Stdout ("::set-output name=output_size::" +:+ pretty n)
      ∈ trace (main Toy.env Toy.same_format Toy.start).2.
Proof.
  apply (same_path_same_sizes Toy.env Toy.same_format Toy.start);
    reflexivity.
Defined.

(** ** The command line *)

Module Parser.

(** A string that does not start with a dash is an argument, and is not
    the separator [--]. *)
Lemma parse_optional_argument s :
  Str.startswith "-" s = false →
  String.eqb s "--" = false ∧ Argparse.parse_optional s = Argparse.Positional.
Proof.
  destruct s as [|c r]; [done|]. simpl. intros Hc.
  destruct (Ascii.eqb_spec c "-") as [->|Hne]; [done|].
  split; [|done]. destruct (String.eqb_spec (String c r) "--") as [E|]; [|done].
  by injection E as -> _.
Qed.

Lemma choice_tag f : Argparse.choice (tag f) = Some f.
Proof. by destruct f. Qed.

Lemma tag_argument f :
  String.eqb (tag f) "--" = false ∧
  Argparse.parse_optional (tag f) = Argparse.Positional.
Proof. by destruct f. Qed.

(** The pattern of a command line, string by string. *)
Lemma pattern_argument s rest :
  Str.startswith "-" s = false →
  Argparse.pattern (s :: rest) = cons (Argparse.A s) <$> Argparse.pattern rest.
Proof.
  intros Hs. destruct (parse_optional_argument s Hs) as [H1 H2].
  cbn [Argparse.pattern]. by rewrite H1, H2.
Qed.

Lemma pattern_tag f rest :
  Argparse.pattern (tag f :: rest)
  = cons (Argparse.A (tag f)) <$> Argparse.pattern rest.
Proof. by destruct f. Qed.

Lemma pattern_url rest :
  Argparse.pattern ("--url" :: rest)
  = cons (Argparse.O (Some (Argparse.Store Argparse.Url)) "--url" None)
      <$> Argparse.pattern rest.
Proof. reflexivity. Qed.

Lemma pattern_output_format rest :
  Argparse.pattern ("--output-format" :: rest)
  = cons (Argparse.O (Some (Argparse.Store Argparse.OutputFormat))
            "--output-format" None)
      <$> Argparse.pattern rest.
Proof. reflexivity. Qed.

Lemma pattern_output_name rest :
  Argparse.pattern ("--output-name" :: rest)
  = cons (Argparse.O (Some (Argparse.Store Argparse.OutputName))
            "--output-name" None)
      <$> Argparse.pattern rest.
Proof. reflexivity. Qed.

(** What the three options store. *)
Lemma take_action_string d s ns :
  String.eqb s "--" = false →
  Argparse.take_action d s ns =
  match d with
  | Argparse.Url =>
      Some {| Argparse.ns_url := Some (Argparse.Given s);
              Argparse.ns_output_format := Argparse.ns_output_format ns;
              Argparse.ns_output_name := Argparse.ns_output_name ns |}
  | Argparse.OutputFormat =>
      match Argparse.choice s with
      | Some f =>
          Some {| Argparse.ns_url := Argparse.ns_url ns;
                  Argparse.ns_output_format := Some (Argparse.Given f);
                  Argparse.ns_output_name := Argparse.ns_output_name ns |}
      | None => None
      end
  | Argparse.OutputName =>
      Some {| Argparse.ns_url := Argparse.ns_url ns;
              Argparse.ns_output_format := Argparse.ns_output_format ns;
              Argparse.ns_output_name := Some (Argparse.Given s) |}
  end.
Proof. intros H. unfold Argparse.take_action. rewrite H. by destruct d. Qed.



End Parser.

(** X14. The command line in its plain form is accepted, and its values
    reach [main] as they are given: with a URL and an output name
    that do not start with a dash, and a format among the four choices,
    the process is the run of [main] on these three values, or on the
    first two when [--output-name] is left out. *)
Theorem documented_command_line env help_message u f n :
  Str.startswith "-" u = false →
  Str.startswith "-" n = false →
  script env help_message
    ["--url"; u; "--output-format"; tag f; "--output-name"; n]
  = Some (main env {| url := u;
                      output_format := f;
                      output_name := Some n |}) ∧
  script env help_message ["--url"; u; "--output-format"; tag f]
  = Some (main env {| url := u;
                      output_format := f;
                      output_name := None |}).
Proof.
  intros Hu Hn.
  destruct (Parser.parse_optional_argument u Hu) as [Hu1 _].
  destruct (Parser.parse_optional_argument n Hn) as [Hn1 _].
  destruct (Parser.tag_argument f) as [Hf1 _].
  unfold script, Argparse.parse_args.
  rewrite !Parser.pattern_url, !(Parser.pattern_argument u) by done.
  rewrite !Parser.pattern_output_format, !Parser.pattern_tag.
  rewrite Parser.pattern_output_name, (Parser.pattern_argument n) by done.
  cbn [Argparse.pattern fmap option_fmap option_map Argparse.consume].
  rewrite !(Parser.take_action_string _ u) by done.
  rewrite !(Parser.take_action_string _ (tag f)) by done.
  rewrite Parser.choice_tag.
  rewrite (Parser.take_action_string _ n) by done.
  done.
Qed.

Lemma documented_command_line_witness :
  script Toy.env Toy.help_message
    ["--url"; "http://fonts.test/b.woff"; "--output-format"; "woff2";
     "--output-name"; "foo"]
  = Some (main Toy.env Toy.named_foo) ∧
  script Toy.env Toy.help_message
    ["--url"; "http://fonts.test/b.woff"; "--output-format"; "woff2"]
  = Some (main Toy.env {| url := "http://fonts.test/b.woff";
                          output_format := woff2;
                          output_name := None |}).
Proof.
  apply (documented_command_line Toy.env Toy.help_message
           "http://fonts.test/b.woff" woff2 "foo"); reflexivity.
Defined.


